(** * FireBreath native-message host: the main loop and its wire protocol

    A shallow embedding of [src/NativeMessageHost/MainLoop.h] and
    [src/NativeMessageHost/MainLoop.cpp]: the envelope parser
    ([parseIncomingMessage], [parseCommandMessage], [parseWyrmholeMessage]),
    the pending-message table ([msgMap], [getMessageInfo]), the outbound
    chunker ([sendCommand], [countChunks]), the inbound entry point
    ([messageIn]), the dispatcher ([processBrowserMessage]) and one pass of
    the loop in [MainLoop::run].

    Conventions.
    - [uint32_t], [FW_INST] and [Json::UInt] are [Z] reduced modulo [2^32];
      [size_t] is [Z] reduced modulo [2^64] (an LP64 or LLP64 target); [int]
      is the signed 32-bit reading of a value.
    - [std::string] is [string]; [std::vector<std::string>] is a list read
      and written by index; [std::deque] is a list used from its front;
      [std::map<uint32_t, messageInfo>] is a [gmap Z messageInfo].
    - A call returns, throws a [std::exception] with a [what()] text, or has
      no defined behaviour (an index outside a vector, [pop_front] on an
      empty deque, a character range outside its buffer).
    - Members that a constructor leaves uninitialised hold the values of an
      explicit [indeterminate] argument. *)

From Stdlib Require Import ZArith String Ascii Bool Lia.
From Stdlib Require QArith Qround.
From stdpp Require Import gmap strings list fin_maps.

Local Set Warnings "-register-all".
Local Open Scope Z_scope.

(** ** Machine integers *)

Definition uint32_modulus : Z := 2 ^ 32.
Definition size_t_modulus : Z := 2 ^ 64.

Definition to_uint32 (z : Z) : Z := z mod uint32_modulus.
Definition to_size_t (z : Z) : Z := z mod size_t_modulus.

(** [(int) z]: the low 32 bits of [z], read as a two's complement number. *)
Definition to_int (z : Z) : Z := (z + 2 ^ 31) mod uint32_modulus - 2 ^ 31.

(** ** Outcomes of a call *)

Inductive undefined : Type :=
| vector_index_out_of_range
| deque_pop_front_empty
| character_range_outside_buffer.

Inductive outcome (A : Type) : Type :=
| Returns (a : A)
| Throws (what : string)
| Undefined (why : undefined).

Arguments Returns {A} a.
Arguments Throws {A} what.
Arguments Undefined {A} why.

#[global] Instance outcome_ret : MRet outcome := fun A a => Returns a.

#[global] Instance outcome_bind : MBind outcome := fun A B f x =>
  match x with
  | Returns a => f a
  | Throws w => Throws w
  | Undefined u => Undefined u
  end.

(** ** The JSON library at its boundary

    [Json::Value] and the accessors that the host calls on it.  The library
    is not part of the host's sources; the accessors follow its documented
    behaviour: a conversion that the value's type does not allow is a
    [std::runtime_error]. *)

Module Json.

Inductive Value : Type :=
| nullValue
| intValue (i : Z)
| uintValue (u : Z)
| realValue (r : QArith_base.Q)
| stringValue (s : string)
| booleanValue (b : bool)
| arrayValue (elements : list Value)
| objectValue (members : gmap string Value).

Definition maxUInt : Z := uint32_modulus - 1.

Definition isObject (v : Value) : bool :=
  match v with objectValue _ => true | _ => false end.

(** [v.isMember(key)] *)
Definition isMember (v : Value) (key : string) : bool :=
  match v with
  | objectValue members => bool_decide (is_Some (members !! key))
  | _ => false
  end.

(** [v.get(key, defaultValue)] *)
Definition get (v : Value) (key : string) (defaultValue : Value) : Value :=
  match v with
  | objectValue members => default defaultValue (members !! key)
  | _ => defaultValue
  end.

(** [v[key]], read: a missing member reads as null. *)
Definition index (v : Value) (key : string) : Value := get v key nullValue.

(** [v[key] = x] on an object. *)
Definition assign (v : Value) (key : string) (x : Value) : Value :=
  match v with
  | objectValue members => objectValue (<[key := x]> members)
  | _ => objectValue {[ key := x ]}
  end.

Definition isIntegral (v : Value) : bool :=
  match v with
  | intValue _ | uintValue _ | booleanValue _ => true
  | _ => false
  end.

Definition asUInt (v : Value) : outcome Z :=
  match v with
  | nullValue => Returns 0
  | intValue i =>
      if (0 <=? i) && (i <=? maxUInt) then Returns i
      else Throws "Negative integer can not be converted to unsigned integer"
  | uintValue u =>
      if u <=? maxUInt then Returns u
      else Throws "unsigned integer out of UInt range"
  | realValue r =>
      if QArith_base.Qle_bool (QArith_base.inject_Z 0) r
         && QArith_base.Qle_bool r (QArith_base.inject_Z maxUInt)
      then Returns (Qround.Qfloor r)
      else Throws "Real out of unsigned integer range"
  | booleanValue b => Returns (if b then 1 else 0)
  | stringValue _ | arrayValue _ | objectValue _ =>
      Throws "Type is not convertible to uint"
  end.

Definition asString (v : Value) : outcome string :=
  match v with
  | nullValue => Returns ""
  | stringValue s => Returns s
  | booleanValue b => Returns (if b then "true" else "false")
  | intValue _ | uintValue _ | realValue _ | arrayValue _ | objectValue _ =>
      Throws "Type is not convertible to string"
  end.

End Json.

Import Json.

(** ** MainLoop.h: message records *)

Inductive MessageType : Type :=
| UNKNOWN | CREATE | DESTROY | COMMAND | RESPONSE | ERROR.

Definition MessageType_eqb (a b : MessageType) : bool :=
  match a, b with
  | UNKNOWN, UNKNOWN | CREATE, CREATE | DESTROY, DESTROY
  | COMMAND, COMMAND | RESPONSE, RESPONSE | ERROR, ERROR => true
  | _, _ => false
  end.

Record messageInfo : Type := {
  colonyId : Z;
  msgId : Z;
  c : Z;
  curC : Z;
  msgs : list string;
  type : MessageType
}.

(** What the scalar members of a [messageInfo] hold when no constructor
    initialises them. *)
Record indeterminate : Type := {
  any_colonyId : Z;
  any_msgId : Z;
  any_c : Z;
  any_curC : Z;
  any_type : MessageType
}.

(** [messageInfo(size_t c, uint32_t msgId)]: [type] is not initialised. *)
Definition messageInfo_sized (junk : indeterminate) (c0 msgId0 : Z) : messageInfo :=
  {| colonyId := 0; msgId := msgId0; c := c0; curC := 0;
     msgs := replicate (Z.to_nat c0) ""; type := any_type junk |}.

(** [messageInfo(MessageType type, std::string msg)]: only [type] and [msgs]
    are initialised. *)
Definition messageInfo_typed (junk : indeterminate) (t : MessageType) (msg : string)
  : messageInfo :=
  {| colonyId := any_colonyId junk; msgId := any_msgId junk;
     c := any_c junk; curC := any_curC junk;
     msgs := [msg]; type := t |}.

(** [messageInfo()]: an empty [msgs], nothing else initialised. *)
Definition messageInfo_default (junk : indeterminate) : messageInfo :=
  {| colonyId := any_colonyId junk; msgId := any_msgId junk;
     c := any_c junk; curC := any_curC junk;
     msgs := []; type := any_type junk |}.

Definition isComplete (m : messageInfo) : bool := c m <=? curC m.

(** [getString]: the first loop only sizes the buffer; the second appends the
    fragments in index order. *)
Definition getString (m : messageInfo) : string :=
  foldl (fun out fragment => out +:+ fragment) "" (msgs m).

Definition set_colonyId (v : Z) (m : messageInfo) : messageInfo :=
  {| colonyId := v; msgId := msgId m; c := c m; curC := curC m;
     msgs := msgs m; type := type m |}.

Definition set_curC (v : Z) (m : messageInfo) : messageInfo :=
  {| colonyId := colonyId m; msgId := msgId m; c := c m; curC := v;
     msgs := msgs m; type := type m |}.

Definition set_msgs (v : list string) (m : messageInfo) : messageInfo :=
  {| colonyId := colonyId m; msgId := msgId m; c := c m; curC := curC m;
     msgs := v; type := type m |}.

Definition set_type (v : MessageType) (m : messageInfo) : messageInfo :=
  {| colonyId := colonyId m; msgId := msgId m; c := c m; curC := curC m;
     msgs := msgs m; type := v |}.

(** [v[n] = x] on a [std::vector]: defined only inside the vector. *)
Definition vector_assign {A} (v : list A) (n : Z) (x : A) : outcome (list A) :=
  if (0 <=? n) && (n <? Z.of_nat (length v))
  then Returns (<[Z.to_nat n := x]> v)
  else Undefined vector_index_out_of_range.

(** [v[n]], read. *)
Definition vector_at {A} (v : list A) (n : Z) : outcome A :=
  if 0 <=? n then
    match v !! Z.to_nat n with
    | Some x => Returns x
    | None => Undefined vector_index_out_of_range
    end
  else Undefined vector_index_out_of_range.

(** ** Collaborators outside these two files *)

(** A loaded plugin module, by what the host asks of it:
    [Init(&m_hFuncs, &m_cFuncs)] and [getPluginName()]. *)
Record PluginLoader : Type := {
  Init : outcome unit;
  getPluginName : string
}.

(** [MainLoop::AsyncCall]: a function pointer and its opaque argument. *)
Record AsyncCall : Type := {
  fn : Z;
  pData : Z
}.

(** What plugin code can do to the host: the three entries that [run] stores
    in [m_hFuncs]. *)
Inductive HostCall : Type :=
| hFuncs_doAsyncCall (call : AsyncCall)
| hFuncs_call (colonyId cmdId : Z) (strCommand : string) (strCommandLen : Z)
| hFuncs_cmdCallback (colonyId cmdId : Z) (strResp : string) (strRespLen : Z).

Class Collaborators : Type := {
  (** [Json::Reader::parse(command, root, false)]: the document, or [None]
      when the reader returns false. *)
  Reader_parse : string -> option Value;
  (** [PluginLoader::LoadPlugin(mimetype)]. *)
  LoadPlugin : string -> outcome PluginLoader;
  (** [e.what()] in a handler [catch (std::exception e)], which receives a
      copy of the [std::exception] base of the object thrown with the given
      text. *)
  caught_what : string -> string;
  (** The calls that [( *(c.fn))(c.pData)] makes through [m_hFuncs]. *)
  async_body : AsyncCall -> list HostCall
}.

(** [FW_RESULT], from FireWyrm.h; the host only ever returns [FW_SUCCESS]. *)
Inductive FW_RESULT : Type :=
| FW_SUCCESS
| FW_ERR (code : Z).

(** ** MainLoop.cpp: the pending-message table *)

Definition maxCommandSize : Z := 768 * 1024.

(** [ceil(size / maxCommandSize)] on doubles.  For a [uint32_t] size the
    quotient is either an integer, which is exact, or at least
    [1 / maxCommandSize] away from one, far more than a rounding error of the
    division; the result is the integer ceiling. *)
Definition countChunks (size : Z) : Z := - ((- size) / maxCommandSize).

Definition getMessageInfo (junk : indeterminate) (msgId0 c0 : Z)
    (msgMap : gmap Z messageInfo) : outcome messageInfo * gmap Z messageInfo :=
  match msgMap !! msgId0 with
  | None =>
      let newMsg := messageInfo_sized junk c0 msgId0 in
      (Returns newMsg, <[msgId0 := newMsg]> msgMap)
  | Some fnd =>
      if negb (c fnd =? c0)
      then (Throws "Invalid sequence size; sequence size already set", msgMap)
      else (Returns fnd, msgMap)
  end.

(** ** MainLoop.cpp: the envelope parser *)

Definition parseCommandMessage (junk : indeterminate) (root : Value)
  : outcome messageInfo :=
  cmd ← asString (index root "cmd");
  if String.eqb cmd "create" then
    if negb (isMember root "mimetype") then Throws "Missing Mimetype"
    else
      mimetype ← asString (index root "mimetype");
      mret (set_msgs (msgs (messageInfo_default junk) ++ [mimetype])
              (set_type CREATE (messageInfo_default junk)))
  else Throws "Unknown command".

(** The fields that [parseWyrmholeMessage] reads from the document before it
    touches the table: [(colonyId, cmdId, c, n, type)]. *)
Definition wyrmholeHeader (root : Value) : outcome (Z * Z * Z * Z * MessageType) :=
  if negb (isMember root "c") || negb (isIntegral (index root "c"))
     || negb (isMember root "cmdId") || negb (isIntegral (index root "cmdId"))
  then Throws "Invalid message"
  else
    colonyId0 ← (if isMember root "colonyId"
                 then asUInt (get root "colonyId" (intValue 0))
                 else mret 0);
    cmdId ← asUInt (index root "cmdId");
    c0 ← asUInt (get root "c" (intValue 1));
    n ← (if 1 <? c0 then
           if negb (isMember root "n") || negb (isIntegral (index root "n"))
           then Throws "Missing sequence id in multi-part message"
           else n1 ← asUInt (get root "n" (intValue 1)); mret (to_uint32 (n1 - 1))
         else mret (to_uint32 (c0 - 1)));
    type0 ← (if isMember root "type"
             then t ← asString (index root "type");
                  mret (if String.eqb t "resp" then RESPONSE else COMMAND)
             else mret COMMAND);
    mret (colonyId0, cmdId, c0, n, type0).

(** The statements after the table lookup, on the copy [info] of the entry. *)
Definition fillMessageInfo (root : Value) (colonyId0 n : Z) (type0 : MessageType)
    (info : messageInfo) : outcome messageInfo :=
  let info := set_colonyId colonyId0 info in
  msg ← asString (index root "msg");
  msgs' ← vector_assign (msgs info) n msg;
  let info := set_msgs msgs' info in
  let info := set_curC (to_size_t (curC info + 1)) info in
  mret (set_type type0 info).

(** [messageInfo info(getMessageInfo(c, cmdId))]: the arguments are passed in
    this order to [getMessageInfo(uint32_t msgId, size_t c)], and [info] is a
    copy of the entry that the call returns by reference. *)
Definition parseWyrmholeMessage (junk : indeterminate) (root : Value)
    (msgMap : gmap Z messageInfo) : outcome messageInfo * gmap Z messageInfo :=
  match wyrmholeHeader root with
  | Returns (colonyId0, cmdId, c0, n, type0) =>
      match getMessageInfo junk c0 cmdId msgMap with
      | (Returns entry, msgMap') =>
          (fillMessageInfo root colonyId0 n type0 entry, msgMap')
      | (Throws w, msgMap') => (Throws w, msgMap')
      | (Undefined u, msgMap') => (Undefined u, msgMap')
      end
  | Throws w => (Throws w, msgMap)
  | Undefined u => (Undefined u, msgMap)
  end.

Definition parseIncomingMessage `{env : Collaborators} (junk : indeterminate)
    (command : string) (msgMap : gmap Z messageInfo)
  : outcome messageInfo * gmap Z messageInfo :=
  match Reader_parse command with
  | None => (Throws "Invalid json", msgMap)
  | Some root =>
      if negb (isObject root) then (Throws "Invalid message", msgMap)
      else if isMember root "cmd" then (parseCommandMessage junk root, msgMap)
      else if isMember root "msg" then parseWyrmholeMessage junk root msgMap
      else (Throws "Unknown message", msgMap)
  end.

(** ** MainLoop.cpp: the outbound chunker *)

(** An upper bound of [std::string::max_size()] on the targets considered. *)
Definition string_max_size : Z := 2 ^ 63 - 1.

(** [std::string(buffer + off, count)] with [count] converted to [size_t]: a
    [std::length_error] beyond [max_size()], else defined when the range lies
    inside the buffer. *)
Definition string_from_buffer (buffer : string) (off count : Z) : outcome string :=
  let count := to_size_t count in
  if string_max_size <? count then Throws "basic_string"
  else if (0 <=? off) && (off + count <=? Z.of_nat (String.length buffer))
  then Returns (substring (Z.to_nat off) (Z.to_nat count) buffer)
  else Undefined character_range_outside_buffer.

(** The length argument of the [i]-th fragment:
    [std::min((int)maxCommandSize, (int)(strCommandLen - maxCommandSize * i))]. *)
Definition chunkLength (strCommandLen i : Z) : Z :=
  Z.min (to_int maxCommandSize)
        (to_int (to_size_t (strCommandLen - to_size_t (maxCommandSize * i)))).

(** The loop body for [i], [i + 1], ..., [remaining] times; [root] keeps the
    members set by earlier rounds.  Returns the documents written, each framed
    by [writeMessage] as one length-prefixed frame, oldest first. *)
Fixpoint sendChunks (root : Value) (strCommand : string) (strCommandLen i : Z)
    (remaining : nat) : outcome unit * list Value :=
  match remaining with
  | O => (Returns (), [])
  | S k =>
      let root := assign root "n" (uintValue (to_size_t (i + 1))) in
      match string_from_buffer strCommand (to_size_t (maxCommandSize * i))
              (chunkLength strCommandLen i) with
      | Returns fragment =>
          let root := assign root "msg" (stringValue fragment) in
          let (r, written) := sendChunks root strCommand strCommandLen (i + 1) k in
          (r, root :: written)
      | Throws w => (Throws w, [])
      | Undefined u => (Undefined u, [])
      end
  end.

Definition sendCommand (colonyId0 cmdId : Z) (strCommand : string)
    (strCommandLen : Z) (type0 : string) : outcome FW_RESULT * list Value :=
  let root := objectValue ∅ in
  let c0 := countChunks strCommandLen in
  let root := assign root "c" (uintValue c0) in
  let root := assign root "type" (stringValue type0) in
  let root := assign root "colonyId" (uintValue colonyId0) in
  let root := assign root "cmdId" (uintValue cmdId) in
  let (r, written) := sendChunks root strCommand strCommandLen 0 (Z.to_nat c0) in
  (_ ← r; mret FW_SUCCESS, written).

Definition doCommand (colonyId0 cmdId : Z) (strCommand : string) (strCommandLen : Z)
  : outcome FW_RESULT * list Value :=
  sendCommand colonyId0 cmdId strCommand strCommandLen "cmd".

Definition doCommandCallback (colonyId0 cmdId : Z) (strResp : string) (strRespLen : Z)
  : outcome FW_RESULT * list Value :=
  sendCommand colonyId0 cmdId strResp strRespLen "resp".

(** ** MainLoop: state, inbound entry point, dispatcher and loop *)

(** The [MainLoop] members that the loop reads and writes, with the pieces of
    process state it shares: the file-level [msgMap], the documents framed
    onto [std::cout] (oldest first), and the callbacks run so far. *)
Record MainLoop : Type := {
  m_messagesIn : list messageInfo;
  m_AsyncCalls : list AsyncCall;
  m_needsToExit : bool;
  m_pluginLoader : option PluginLoader;
  msgMap : gmap Z messageInfo;
  cout : list Value;
  invoked : list AsyncCall
}.

Definition set_messagesIn (v : list messageInfo) (ml : MainLoop) : MainLoop :=
  {| m_messagesIn := v; m_AsyncCalls := m_AsyncCalls ml;
     m_needsToExit := m_needsToExit ml; m_pluginLoader := m_pluginLoader ml;
     msgMap := msgMap ml; cout := cout ml; invoked := invoked ml |}.

Definition set_AsyncCalls (v : list AsyncCall) (ml : MainLoop) : MainLoop :=
  {| m_messagesIn := m_messagesIn ml; m_AsyncCalls := v;
     m_needsToExit := m_needsToExit ml; m_pluginLoader := m_pluginLoader ml;
     msgMap := msgMap ml; cout := cout ml; invoked := invoked ml |}.

Definition set_pluginLoader (v : option PluginLoader) (ml : MainLoop) : MainLoop :=
  {| m_messagesIn := m_messagesIn ml; m_AsyncCalls := m_AsyncCalls ml;
     m_needsToExit := m_needsToExit ml; m_pluginLoader := v;
     msgMap := msgMap ml; cout := cout ml; invoked := invoked ml |}.

Definition set_msgMap (v : gmap Z messageInfo) (ml : MainLoop) : MainLoop :=
  {| m_messagesIn := m_messagesIn ml; m_AsyncCalls := m_AsyncCalls ml;
     m_needsToExit := m_needsToExit ml; m_pluginLoader := m_pluginLoader ml;
     msgMap := v; cout := cout ml; invoked := invoked ml |}.

Definition set_cout (v : list Value) (ml : MainLoop) : MainLoop :=
  {| m_messagesIn := m_messagesIn ml; m_AsyncCalls := m_AsyncCalls ml;
     m_needsToExit := m_needsToExit ml; m_pluginLoader := m_pluginLoader ml;
     msgMap := msgMap ml; cout := v; invoked := invoked ml |}.

Definition set_invoked (v : list AsyncCall) (ml : MainLoop) : MainLoop :=
  {| m_messagesIn := m_messagesIn ml; m_AsyncCalls := m_AsyncCalls ml;
     m_needsToExit := m_needsToExit ml; m_pluginLoader := m_pluginLoader ml;
     msgMap := msgMap ml; cout := cout ml; invoked := v |}.

(** [scheduleCall] *)
Definition scheduleCall (call : AsyncCall) (ml : MainLoop) : MainLoop :=
  set_AsyncCalls (m_AsyncCalls ml ++ [call]) ml.

(** [writeMessage]: the four bytes of the length, least significant first,
    then the text.  One call frames one document; [cout] below lists the
    documents framed rather than their bytes, the text of a document being
    the JSON writer's. *)
Definition writeMessage (output : string) : string :=
  let a := Z.of_nat (String.length output) in
  let byte (shift : Z) := ascii_of_N (Z.to_N (Z.land (Z.shiftr a shift) 255)) in
  String (byte 0) (String (byte 8) (String (byte 16) (String (byte 24) output))).

(** [writeObj]: one document whose members are the strings of [outMap]. *)
Definition writeObj (outMap : gmap string string) (ml : MainLoop) : MainLoop :=
  set_cout (cout ml ++ [objectValue (stringValue <$> outMap)]) ml.

(** A call of [sendCommand] made from the loop's thread: when it returns, the
    documents it wrote follow those already on [std::cout]; an exception is
    not handled anywhere on the way out of [run]. *)
Definition hostSend (sent : outcome FW_RESULT * list Value) (ml : MainLoop)
  : outcome MainLoop :=
  _ ← sent.1; mret (set_cout (cout ml ++ sent.2) ml).

(** How a pass of the loop ends: blocked in [m_cond.wait] with no work, left
    through [return], or back at the loop's test. *)
Inductive pass : Type :=
| waiting (ml : MainLoop)
| exited (ml : MainLoop)
| looped (ml : MainLoop).

Section Loop.

Context `{env : Collaborators}.

Definition messageIn (junk : indeterminate) (msg : string) (ml : MainLoop)
  : outcome MainLoop :=
  let (parsed, msgMap') := parseIncomingMessage junk msg (msgMap ml) in
  let ml := set_msgMap msgMap' ml in
  processedMsg ← match parsed with
                 | Returns m => Returns m
                 | Throws w => Returns (messageInfo_typed junk ERROR (caught_what w))
                 | Undefined u => Undefined u
                 end;
  if isComplete processedMsg
  then mret (set_messagesIn (m_messagesIn ml ++ [processedMsg]) ml)
  else mret ml.

(** The [try] block of the second branch: the loader is stored before
    [Init] runs, and the handler acknowledges whatever either call throws. *)
Definition loadAndAcknowledge (mimetype : string) (ml : MainLoop)
  : outcome MainLoop :=
  match LoadPlugin mimetype with
  | Returns loader =>
      let ml := set_pluginLoader (Some loader) ml in
      match Init loader with
      | Returns _ =>
          mret (writeObj {[ "status" := "success";
                            "plugin" := getPluginName loader ]} ml)
      | Throws w =>
          mret (writeObj {[ "status" := "error"; "message" := caught_what w ]} ml)
      | Undefined u => Undefined u
      end
  | Throws w =>
      mret (writeObj {[ "status" := "error"; "message" := caught_what w ]} ml)
  | Undefined u => Undefined u
  end.

(** [m_hFuncs.call] and [m_hFuncs.cmdCallback] are [doCommand] and
    [doCommandCallback], stored by [run] before its loop; [msg.size()] is
    narrowed to the [uint32_t] parameter. *)
Definition processBrowserMessage (message : messageInfo) (ml : MainLoop)
  : outcome MainLoop :=
  if MessageType_eqb (type message) ERROR then
    m0 ← vector_at (msgs message) 0;
    mret (writeObj {[ "status" := "error"; "message" := m0 ]} ml)
  else if MessageType_eqb (type message) COMMAND then
    m0 ← vector_at (msgs message) 0;
    loadAndAcknowledge m0 ml
  else
    if MessageType_eqb (type message) COMMAND then
      let msg := getString message in
      hostSend (doCommand (colonyId message) (msgId message) msg
                  (to_uint32 (Z.of_nat (String.length msg)))) ml
    else if MessageType_eqb (type message) RESPONSE then
      let msg := getString message in
      hostSend (doCommandCallback (colonyId message) (msgId message) msg
                  (to_uint32 (Z.of_nat (String.length msg)))) ml
    else
      mret (writeObj {[ "status" := "error"; "message" := "Unknown message" ]} ml).

(** One call made by plugin code through [m_hFuncs]. *)
Definition hostCall (h : HostCall) (ml : MainLoop) : outcome MainLoop :=
  match h with
  | hFuncs_doAsyncCall call => mret (scheduleCall call ml)
  | hFuncs_call colonyId0 cmdId strCommand strCommandLen =>
      hostSend (doCommand colonyId0 cmdId strCommand strCommandLen) ml
  | hFuncs_cmdCallback colonyId0 cmdId strResp strRespLen =>
      hostSend (doCommandCallback colonyId0 cmdId strResp strRespLen) ml
  end.

Definition hostCalls (hs : list HostCall) (ml : MainLoop) : outcome MainLoop :=
  foldl (fun acc h => ml' ← acc; hostCall h ml') (Returns ml) hs.

Definition workExists (ml : MainLoop) : bool :=
  m_needsToExit ml
  || negb (length (m_messagesIn ml) =? 0)%nat
  || negb (length (m_AsyncCalls ml) =? 0)%nat.

(** [if (m_AsyncCalls.size()) { ... }] *)
Definition runAsyncCall (ml : MainLoop) : outcome MainLoop :=
  match m_AsyncCalls ml with
  | [] => mret ml
  | call :: rest =>
      let ml := set_AsyncCalls rest ml in
      let ml := set_invoked (invoked ml ++ [call]) ml in
      hostCalls (async_body call) ml
  end.

(** [if (m_messagesIn.size()) { ... }]: the front message is copied, then
    [m_AsyncCalls.pop_front()] runs. *)
Definition runMessage (ml : MainLoop) : outcome MainLoop :=
  match m_messagesIn ml with
  | [] => mret ml
  | message :: _ =>
      match m_AsyncCalls ml with
      | [] => Undefined deque_pop_front_empty
      | _ :: rest => processBrowserMessage message (set_AsyncCalls rest ml)
      end
  end.

(** One pass through the body of [while (!m_needsToExit)], with no other
    thread interfering. *)
Definition runPass (ml : MainLoop) : outcome pass :=
  if negb (workExists ml) then mret (waiting ml)
  else if m_needsToExit ml then mret (exited ml)
  else ml ← runAsyncCall ml; ml ← runMessage ml; mret (looped ml).

(** [run], for at most [passes] passes. *)
Fixpoint run (passes : nat) (ml : MainLoop) : outcome pass :=
  match passes with
  | O => mret (looped ml)
  | S k =>
      if m_needsToExit ml then mret (exited ml)
      else
        p ← runPass ml;
        match p with
        | looped ml' => run k ml'
        | _ => mret p
        end
  end.

End Loop.

(** ** Vocabulary of the statements *)

(** The text that a chunk document carries in [msg]. *)
Definition fragmentOf (doc : Value) : string :=
  match index doc "msg" with
  | stringValue s => s
  | _ => ""
  end.

(** The share of [payload] that the chunk with zero-based number [i] covers. *)
Definition payloadSlice (payload : string) (i : Z) : string :=
  substring (Z.to_nat (maxCommandSize * i))
            (Z.to_nat (Z.min maxCommandSize
                         (Z.of_nat (String.length payload) - maxCommandSize * i)))
            payload.

(** Fragments joined in the order given, the way [getString] joins [msgs]. *)
Definition joinFragments (fragments : list string) : string :=
  foldl (fun out fragment => out +:+ fragment) "" fragments.

(** A table none of whose entries has received anything. *)
Definition pristine (table : gmap Z messageInfo) : Prop :=
  forall key entry, table !! key = Some entry ->
    curC entry = 0 /\ msgs entry = replicate (length (msgs entry)) "".

(** A chunk document as the browser side sends it. *)
Definition chunkDocument (c0 cmdId n : Z) (msg : string) : Value :=
  objectValue {[ "c" := intValue c0; "cmdId" := intValue cmdId;
                 "n" := intValue n; "msg" := stringValue msg ]}.

(** Chunk documents handed to [parseWyrmholeMessage] one after the other, in
    the order given, each on the table the previous one left. *)
Fixpoint deliver (junk : indeterminate) (docs : list Value)
    (table : gmap Z messageInfo) : list (outcome messageInfo) :=
  match docs with
  | [] => []
  | doc :: docs =>
      let (parsed, table') := parseWyrmholeMessage junk doc table in
      parsed :: deliver junk docs table'
  end.

(** Completeness as the specification words it: the sequence numbers that
    have arrived cover [c0] distinct indices. *)
Definition completeByCoverage (c0 : Z) (arrived : list Z) : bool :=
  Z.of_nat (length (remove_dups arrived)) =? c0.

(** Collaborators for the worked examples: a reader that accepts the text of
    the empty record only, a loader that knows the test plugin, a handler
    copy that keeps the generic text, and callbacks that leave the host
    alone. *)
Definition fbtest_collaborators : Collaborators :=
  {| Reader_parse := fun command =>
       if String.eqb command "{}" then Some (objectValue ∅) else None;
     LoadPlugin := fun mimetype =>
       if String.eqb mimetype "application/x-fbtestplugin"
       then Returns {| Init := Returns (); getPluginName := "FBTestPlugin" |}
       else Throws "No registered plugin";
     caught_what := fun _ => "std::exception";
     async_body := fun _ => [] |}.

(** Stale memory in which the declared count exceeds the received count. *)
Definition stale_incomplete : indeterminate :=
  {| any_colonyId := 0; any_msgId := 0; any_c := 1; any_curC := 0;
     any_type := UNKNOWN |}.

(** Stale memory that happens to be all zero. *)
Definition stale_zero : indeterminate :=
  {| any_colonyId := 0; any_msgId := 0; any_c := 0; any_curC := 0;
     any_type := UNKNOWN |}.

(** A loop with nothing queued, loaded, pending or written. *)
Definition idle : MainLoop :=
  {| m_messagesIn := []; m_AsyncCalls := []; m_needsToExit := false;
     m_pluginLoader := None; msgMap := ∅; cout := []; invoked := [] |}.

(** The length that a reader of the byte stream takes from the four bytes of
    a frame's prefix, least significant first. *)
Definition frameLength (b0 b1 b2 b3 : ascii) : Z :=
  Z.of_N (N_of_ascii b0) + 2 ^ 8 * Z.of_N (N_of_ascii b1)
  + 2 ^ 16 * Z.of_N (N_of_ascii b2) + 2 ^ 24 * Z.of_N (N_of_ascii b3).

(** The reader's side of the wire format: the text of the first frame of a
    stream and what follows it, or nothing when the stream is shorter than
    its prefix announces. *)
Definition readFrame (stream : string) : option (string * string) :=
  match stream with
  | String b0 (String b1 (String b2 (String b3 rest))) =>
      let n := Z.to_nat (frameLength b0 b1 b2 b3) in
      if (n <=? String.length rest)%nat
      then Some (substring 0 n rest, substring n (String.length rest - n) rest)
      else None
  | _ => None
  end.

(** The calls that a callback's host calls add to the async-call queue, in
    the order made. *)
Definition scheduledBy (hs : list HostCall) : list AsyncCall :=
  omap (fun h => match h with
                 | hFuncs_doAsyncCall call => Some call
                 | _ => None
                 end) hs.

(** Collaborators whose loader finds a module for every mimetype and whose
    modules all fail to initialise. *)
Definition failing_init_collaborators : Collaborators :=
  {| Reader_parse := fun _ => None;
     LoadPlugin := fun mimetype =>
       Returns {| Init := Throws "Init failed"; getPluginName := mimetype |};
     caught_what := fun what => what;
     async_body := fun _ => [] |}.

(** Collaborators whose callback number 1 schedules callback number 2 with
    the same argument, every other callback leaving the host alone. *)
Definition chaining_collaborators : Collaborators :=
  {| Reader_parse := fun _ => None;
     LoadPlugin := fun _ => Throws "No registered plugin";
     caught_what := fun what => what;
     async_body := fun call =>
       if fn call =? 1
       then [hFuncs_doAsyncCall {| fn := 2; pData := pData call |}]
       else [] |}.

(** * Properties *)

(** ** Strings and machine integers *)

Lemma substring_length (s : string) (n m : nat) :
  (n + m <= String.length s)%nat -> String.length (substring n m s) = m.
Proof.
  revert n m. induction s as [|ch s IH]; intros [|n] [|m] Hle; simpl in *;
    try reflexivity; try lia.
  - f_equal. apply IH. lia.
  - apply IH. lia.
  - apply IH. lia.
Qed.

Lemma substring_all (s : string) : substring 0 (String.length s) s = s.
Proof. induction s as [|ch s IH]; simpl; [reflexivity | by rewrite IH]. Qed.

(** A prefix of [a + b] characters is the prefix of [a] characters followed by
    the [b] characters after it. *)
Lemma substring_split (s : string) (a b : nat) :
  substring 0 (a + b) s = substring 0 a s +:+ substring a b s.
Proof.
  revert a b. induction s as [|ch s IH]; intros [|a] b; simpl.
  - by destruct b.
  - reflexivity.
  - reflexivity.
  - by rewrite IH.
Qed.

Lemma string_append_cons (ch : ascii) (s1 s2 : string) :
  String ch s1 +:+ s2 = String ch (s1 +:+ s2).
Proof. reflexivity. Qed.

Lemma string_append_empty_r (s : string) : s +:+ "" = s.
Proof.
  induction s as [|ch s IH]; [reflexivity|].
  by rewrite string_append_cons, IH.
Qed.

Lemma string_append_assoc (s1 s2 s3 : string) :
  (s1 +:+ s2) +:+ s3 = s1 +:+ (s2 +:+ s3).
Proof.
  induction s1 as [|ch s1 IH]; [reflexivity|].
  by rewrite !string_append_cons, IH.
Qed.

Lemma to_size_t_small (z : Z) : 0 <= z < size_t_modulus -> to_size_t z = z.
Proof. intros Hz. unfold to_size_t. by apply Z.mod_small. Qed.

Lemma to_int_small (z : Z) : - 2 ^ 31 <= z < 2 ^ 31 -> to_int z = z.
Proof.
  intros Hz. unfold to_int, uint32_modulus.
  rewrite Z.mod_small; lia.
Qed.

(** A length of [2^31] or more turns negative under the [(int)] cast. *)
Lemma to_int_large (z : Z) : 2 ^ 31 <= z < 2 ^ 32 -> to_int z = z - 2 ^ 32.
Proof.
  intros Hz. unfold to_int, uint32_modulus.
  replace (z + 2 ^ 31) with ((z - 2 ^ 31) + 1 * 2 ^ 32) by lia.
  rewrite Z.mod_add by lia. rewrite Z.mod_small; lia.
Qed.

Lemma writeMessage_length (output : string) :
  String.length (writeMessage output) = (4 + String.length output)%nat.
Proof. reflexivity. Qed.

(** ** [countChunks] is the integer ceiling *)

Lemma countChunks_bounds (size : Z) :
  maxCommandSize * (countChunks size - 1) < size <= maxCommandSize * countChunks size.
Proof.
  unfold countChunks, maxCommandSize.
  pose proof (Z.div_mod (- size) (768 * 1024) ltac:(lia)) as Hdm.
  pose proof (Z.mod_pos_bound (- size) (768 * 1024) ltac:(lia)) as Hb.
  lia.
Qed.

Lemma countChunks_unique (size k : Z) :
  maxCommandSize * (k - 1) < size <= maxCommandSize * k -> countChunks size = k.
Proof.
  intros Hk. pose proof (countChunks_bounds size) as Hc.
  unfold maxCommandSize in *. nia.
Qed.

Lemma countChunks_nonneg (size : Z) : 0 <= size -> 0 <= countChunks size.
Proof.
  intros Hs. pose proof (countChunks_bounds size) as Hc.
  unfold maxCommandSize in *. lia.
Qed.

(** ** Members of a document *)

Lemma index_assign_eq (v : Value) (key : string) (x : Value) :
  index (assign v key x) key = x.
Proof.
  unfold index, get, assign. destruct v; simpl;
    by rewrite ?lookup_insert_eq, ?lookup_singleton_eq.
Qed.

Lemma index_assign_ne (v : Value) (key key' : string) (x : Value) :
  key ≠ key' -> index (assign v key x) key' = index v key'.
Proof.
  intros Hne. unfold index, get, assign. destruct v; simpl;
    by rewrite ?lookup_insert_ne, ?lookup_singleton_ne.
Qed.

Lemma get_assign_ne (v : Value) (key key' : string) (x defaultValue : Value) :
  key ≠ key' -> get (assign v key x) key' defaultValue = get v key' defaultValue.
Proof.
  intros Hne. unfold get, assign. destruct v; simpl;
    by rewrite ?lookup_insert_ne, ?lookup_singleton_ne.
Qed.

Lemma isObject_assign (v : Value) (key : string) (x : Value) :
  isObject (assign v key x) = true.
Proof. by destruct v. Qed.

(** ** The chunker on payloads below [2^31] bytes *)

Lemma chunkLength_in_range (len i : Z) :
  0 <= i -> maxCommandSize * i < len < 2 ^ 31 ->
  chunkLength len i = Z.min maxCommandSize (len - maxCommandSize * i).
Proof.
  intros Hi Hlen. unfold chunkLength.
  assert (0 <= maxCommandSize * i < 2 ^ 31) as Hoff
    by (unfold maxCommandSize in *; lia).
  rewrite (to_size_t_small (maxCommandSize * i))
    by (unfold size_t_modulus; lia).
  rewrite to_size_t_small by (unfold size_t_modulus; lia).
  rewrite !to_int_small; unfold maxCommandSize in *; lia.
Qed.

Lemma string_from_buffer_inside (buffer : string) (off count : Z) :
  0 <= off -> 0 <= count <= string_max_size ->
  off + count <= Z.of_nat (String.length buffer) ->
  string_from_buffer buffer off count
  = Returns (substring (Z.to_nat off) (Z.to_nat count) buffer).
Proof.
  intros Hoff Hcount Hin. unfold string_from_buffer.
  rewrite to_size_t_small
    by (unfold string_max_size, size_t_modulus in *; lia).
  destruct (Z.ltb_spec string_max_size count); [lia|].
  destruct (Z.leb_spec 0 off); [|lia].
  destruct (Z.leb_spec (off + count) (Z.of_nat (String.length buffer))); [|lia].
  reflexivity.
Qed.

(** Round [i] of the loop on a payload whose length is [strCommandLen]. *)
Lemma sendChunks_round (root : Value) (payload : string) (i : Z) (k : nat) :
  let len := Z.of_nat (String.length payload) in
  0 <= i -> maxCommandSize * i < len < 2 ^ 31 ->
  sendChunks root payload len i (S k)
  = let root' := assign (assign root "n" (uintValue (i + 1))) "msg"
                   (stringValue (payloadSlice payload i)) in
    let (r, written) := sendChunks root' payload len (i + 1) k in
    (r, root' :: written).
Proof.
  intros len Hi Hlen. cbn [sendChunks].
  assert (0 <= maxCommandSize * i < 2 ^ 31) as Hoff
    by (unfold maxCommandSize in *; lia).
  rewrite (to_size_t_small (i + 1))
    by (unfold size_t_modulus, maxCommandSize in *; lia).
  rewrite (to_size_t_small (maxCommandSize * i))
    by (unfold size_t_modulus; lia).
  rewrite chunkLength_in_range by done.
  rewrite string_from_buffer_inside;
    [reflexivity | lia | unfold string_max_size, maxCommandSize in *; lia | fold len; lia].
Qed.

Lemma sendChunks_in_range (payload : string) (k : nat) :
  let len := Z.of_nat (String.length payload) in
  len < 2 ^ 31 ->
  forall (root : Value) (i : Z),
    0 <= i -> maxCommandSize * (i + Z.of_nat k - 1) < len ->
    exists docs,
      sendChunks root payload len i k = (Returns (), docs)
      /\ length docs = k
      /\ forall (j : nat) (d : Value), docs !! j = Some d ->
           index d "n" = uintValue (i + Z.of_nat j + 1)
           /\ index d "msg" = stringValue (payloadSlice payload (i + Z.of_nat j))
           /\ forall key, key ≠ "n" -> key ≠ "msg" -> index d key = index root key.
Proof.
  intros len Hlen. induction k as [|k IH]; intros root i Hi Hcover.
  - exists []. split; [done|]. split; [done|]. intros j d Hj. by destruct j.
  - rewrite sendChunks_round by (fold len; unfold maxCommandSize in *; lia).
    cbv zeta.
    set (root' := assign (assign root "n" (uintValue (i + 1))) "msg"
                    (stringValue (payloadSlice payload i))).
    destruct (IH root' (i + 1)) as (docs & Hrun & Hlength & Hdocs); [lia | lia |].
    fold len. rewrite Hrun.
    exists (root' :: docs). split; [done|]. split; [by rewrite <- Hlength|].
    intros [|j] d Hj; simpl in Hj.
    + injection Hj as <-. subst root'. repeat split.
      * rewrite index_assign_ne by done. rewrite index_assign_eq.
        by rewrite Z.add_0_r.
      * rewrite index_assign_eq. by rewrite Z.add_0_r.
      * intros key Hn Hmsg. by rewrite !index_assign_ne.
    + destruct (Hdocs j d Hj) as (Hn & Hmsg & Hrest).
      replace (i + Z.of_nat (S j)) with (i + 1 + Z.of_nat j) by lia.
      repeat split; [done..|].
      intros key Hkn Hkmsg. rewrite Hrest by done. subst root'.
      by rewrite !index_assign_ne.
Qed.

Lemma payloadSlice_length (payload : string) (i : Z) :
  let len := Z.of_nat (String.length payload) in
  0 <= i -> maxCommandSize * i < len ->
  Z.of_nat (String.length (payloadSlice payload i))
  = Z.min maxCommandSize (len - maxCommandSize * i).
Proof.
  intros len Hi Hlen. unfold payloadSlice. fold len.
  rewrite substring_length; unfold maxCommandSize in *; lia.
Qed.

(** The first [m] slices, joined, are the prefix that they cover. *)
Lemma joinFragments_slices (payload : string) (m : nat) :
  let len := Z.of_nat (String.length payload) in
  maxCommandSize * (Z.of_nat m - 1) < len ->
  joinFragments (payloadSlice payload <$> seqZ 0 (Z.of_nat m))
  = substring 0 (Z.to_nat (Z.min len (maxCommandSize * Z.of_nat m))) payload.
Proof.
  intros len. induction m as [|m IH]; intros Hcover.
  - simpl. by destruct payload.
  - assert (maxCommandSize * Z.of_nat m < len) as Hm
      by (unfold maxCommandSize in *; lia).
    assert (maxCommandSize * (Z.of_nat m - 1) < len) as Hm'
      by (unfold maxCommandSize in *; lia).
    rewrite seqZ_S, fmap_app. unfold joinFragments in *.
    simpl. rewrite foldl_snoc, (IH Hm').
    rewrite Z.min_r by lia. unfold payloadSlice. fold len.
    rewrite <- substring_split. f_equal.
    unfold maxCommandSize in *. lia.
Qed.

(** What [sendCommand] writes for a payload shorter than [2^31] bytes whose
    length is the one passed: [countChunks] documents, numbered from 1, each
    carrying its slice of at most [maxCommandSize] bytes, which joined in
    order give the payload back. *)
Lemma sendCommand_in_range (colonyId0 cmdId : Z) (payload type0 : string) :
  let len := Z.of_nat (String.length payload) in
  len < 2 ^ 31 ->
  exists docs,
    sendCommand colonyId0 cmdId payload len type0 = (Returns FW_SUCCESS, docs)
    /\ Z.of_nat (length docs) = countChunks len
    /\ (forall (j : nat) (d : Value), docs !! j = Some d ->
          index d "c" = uintValue (countChunks len)
          /\ index d "type" = stringValue type0
          /\ index d "colonyId" = uintValue colonyId0
          /\ index d "cmdId" = uintValue cmdId
          /\ index d "n" = uintValue (Z.of_nat j + 1)
          /\ fragmentOf d = payloadSlice payload (Z.of_nat j)
          /\ 0 < Z.of_nat (String.length (fragmentOf d)) <= maxCommandSize)
    /\ joinFragments (fragmentOf <$> docs) = payload.
Proof.
  intros len Hlen. unfold sendCommand. fold len.
  pose proof (countChunks_bounds len) as Hbounds.
  pose proof (countChunks_nonneg len ltac:(lia)) as Hcount.
  set (root := assign _ "cmdId" _).
  destruct (sendChunks_in_range payload (Z.to_nat (countChunks len)) Hlen root 0)
    as (docs & Hrun & Hlength & Hdocs); [lia | fold len; lia |].
  fold len in Hrun. rewrite Hrun. exists docs.
  assert (forall (j : nat) d, docs !! j = Some d ->
            maxCommandSize * Z.of_nat j < len) as Hstart.
  { intros j d Hj. apply lookup_lt_Some in Hj.
    unfold maxCommandSize in *. nia. }
  assert (forall (j : nat) d, docs !! j = Some d ->
            fragmentOf d = payloadSlice payload (Z.of_nat j)) as Hfragment.
  { intros j d Hj. destruct (Hdocs j d Hj) as (_ & Hmsg & _).
    unfold fragmentOf. by rewrite Hmsg. }
  split; [done|]. split; [lia|]. split.
  - intros j d Hj. destruct (Hdocs j d Hj) as (Hn & Hmsg & Hrest).
    rewrite !Hrest by done. subst root.
    rewrite (Hfragment j d Hj).
    pose proof (payloadSlice_length payload (Z.of_nat j) ltac:(lia)
                  (Hstart j d Hj)) as Hsize. fold len in Hsize.
    split; [rewrite 3!index_assign_ne by done; apply index_assign_eq|].
    split; [rewrite 2!index_assign_ne by done; apply index_assign_eq|].
    split; [rewrite index_assign_ne by done; apply index_assign_eq|].
    split; [apply index_assign_eq|].
    split; [by rewrite Hn, Z.add_0_l|].
    split; [done|].
    specialize (Hstart j d Hj). unfold maxCommandSize in *. lia.
  - assert (fragmentOf <$> docs
            = payloadSlice payload <$> seqZ 0 (Z.of_nat (length docs))) as ->.
    { apply list_eq. intros j. rewrite !list_lookup_fmap.
      destruct (docs !! j) as [d|] eqn:Hj; simpl.
      - rewrite lookup_seqZ_lt by (apply lookup_lt_Some in Hj; lia).
        simpl. f_equal. by apply Hfragment.
      - rewrite lookup_seqZ_ge; [done|]. apply lookup_ge_None in Hj. lia. }
    rewrite joinFragments_slices by (fold len; lia). fold len.
    rewrite Hlength, Z2Nat.id, Z.min_l by lia.
    subst len. rewrite Nat2Z.id. apply substring_all.
Qed.

(** The oversize example: a payload of [786432 * 2 + 1] bytes leaves as three
    documents numbered 1, 2, 3 that carry 786432, 786432 and 1 bytes, and
    joined in that order they are the payload. *)
Lemma sendCommand_oversize_split (colonyId0 cmdId : Z) (payload type0 : string) :
  Z.of_nat (String.length payload) = 786432 * 2 + 1 ->
  exists d1 d2 d3,
    sendCommand colonyId0 cmdId payload (786432 * 2 + 1) type0
    = (Returns FW_SUCCESS, [d1; d2; d3])
    /\ index d1 "n" = uintValue 1
    /\ index d2 "n" = uintValue 2
    /\ index d3 "n" = uintValue 3
    /\ Z.of_nat (String.length (fragmentOf d1)) = 786432
    /\ Z.of_nat (String.length (fragmentOf d2)) = 786432
    /\ Z.of_nat (String.length (fragmentOf d3)) = 1
    /\ fragmentOf d1 +:+ fragmentOf d2 +:+ fragmentOf d3 = payload.
Proof.
  intros Hlen.
  destruct (sendCommand_in_range colonyId0 cmdId payload type0)
    as (docs & Hrun & Hcount & Hdocs & Hjoin); [rewrite Hlen; lia|].
  rewrite Hlen in Hrun, Hcount, Hdocs.
  replace (countChunks (786432 * 2 + 1)) with 3 in Hcount by reflexivity.
  destruct docs as [|d1 [|d2 [|d3 [|d4 docs]]]]; simpl in Hcount; try lia.
  exists d1, d2, d3. split; [done|].
  destruct (Hdocs 0%nat d1 eq_refl) as (_ & _ & _ & _ & Hn1 & Hf1 & _).
  destruct (Hdocs 1%nat d2 eq_refl) as (_ & _ & _ & _ & Hn2 & Hf2 & _).
  destruct (Hdocs 2%nat d3 eq_refl) as (_ & _ & _ & _ & Hn3 & Hf3 & _).
  split; [done|]. split; [done|]. split; [done|].
  assert (fragmentOf d1 +:+ fragmentOf d2 +:+ fragmentOf d3 = payload) as Hcat.
  { rewrite <- string_append_assoc. exact Hjoin. }
  rewrite Hf1, Hf2, Hf3 in *.
  rewrite !payloadSlice_length
    by (rewrite ?Hlen; unfold maxCommandSize; simpl; lia).
  rewrite Hlen. unfold maxCommandSize.
  split; [simpl; lia|]. split; [simpl; lia|]. split; [simpl; lia|].
  exact Hcat.
Qed.

(** C10: for a length of zero [sendCommand] counts zero chunks, writes no
    document, hence no frame, and returns [FW_SUCCESS], whatever the buffer,
    the identifiers and the direction tag. *)
Theorem sendCommand_empty_payload_dropped
    (colonyId0 cmdId : Z) (strCommand type0 : string) :
  countChunks 0 = 0
  /\ sendCommand colonyId0 cmdId strCommand 0 type0 = (Returns FW_SUCCESS, []).
Proof. split; reflexivity. Qed.

(** C8, at a length the [(int)] cast cannot hold: for a payload of [2^31]
    bytes or more the first fragment length is negative, the string
    constructor is asked for more than [max_size()] characters, and
    [sendCommand] throws before it has written any of the
    [ceil(len / 786432)] documents. *)
Theorem sendCommand_length_cast_overflows
    (colonyId0 cmdId : Z) (strCommand type0 : string) (strCommandLen : Z) :
  2 ^ 31 <= strCommandLen < 2 ^ 32 ->
  0 < countChunks strCommandLen
  /\ chunkLength strCommandLen 0 = strCommandLen - 2 ^ 32
  /\ sendCommand colonyId0 cmdId strCommand strCommandLen type0
     = (Throws "basic_string", []).
Proof.
  intros Hlen.
  pose proof (countChunks_bounds strCommandLen) as Hbounds.
  assert (0 < countChunks strCommandLen) as Hcount
    by (unfold maxCommandSize in *; lia).
  assert (chunkLength strCommandLen 0 = strCommandLen - 2 ^ 32) as Hchunk.
  { unfold chunkLength. rewrite Z.mul_0_r.
    rewrite (to_size_t_small 0) by (unfold size_t_modulus; lia).
    rewrite Z.sub_0_r, to_size_t_small by (unfold size_t_modulus; lia).
    rewrite (to_int_large strCommandLen) by done.
    rewrite (to_int_small maxCommandSize) by (unfold maxCommandSize; lia).
    unfold maxCommandSize. lia. }
  split; [done|]. split; [done|].
  unfold sendCommand.
  destruct (Z.to_nat (countChunks strCommandLen)) as [|k] eqn:Hk; [lia|].
  cbn [sendChunks]. rewrite Hchunk. unfold string_from_buffer.
  assert (to_size_t (strCommandLen - 2 ^ 32) = strCommandLen - 2 ^ 32 + 2 ^ 64)
    as ->.
  { unfold to_size_t, size_t_modulus. symmetry.
    apply (Z.mod_unique_pos _ _ (- 1)); lia. }
  destruct (Z.ltb_spec string_max_size (strCommandLen - 2 ^ 32 + 2 ^ 64));
    [reflexivity | unfold string_max_size in *; lia].
Qed.

Lemma sendCommand_length_cast_overflows_witness :
  2 ^ 31 <= 2147483648 < 2 ^ 32
  /\ sendCommand 0 1 "" 2147483648 "cmd" = (Throws "basic_string", []).
Proof.
  split; [lia|].
  apply (sendCommand_length_cast_overflows 0 1 "" "cmd" 2147483648). lia.
Defined.

(** ** The pending-message table *)

(** [getMessageInfo] itself refuses a second size for an identifier it has
    seen. *)
Lemma getMessageInfo_size_mismatch (junk : indeterminate) (msgId0 c0 : Z)
    (table : gmap Z messageInfo) (fnd : messageInfo) :
  table !! msgId0 = Some fnd -> c fnd ≠ c0 ->
  getMessageInfo junk msgId0 c0 table
  = (Throws "Invalid sequence size; sequence size already set", table).
Proof.
  intros Hfnd Hsize. unfold getMessageInfo. rewrite Hfnd.
  destruct (Z.eqb_spec (c fnd) c0); [done|reflexivity].
Qed.

(** The entry that [getMessageInfo] returns is in the table afterwards, and
    the table changes only by gaining a freshly sized entry. *)
Lemma getMessageInfo_returns (junk : indeterminate) (msgId0 c0 : Z)
    (table table' : gmap Z messageInfo) (entry : messageInfo) :
  getMessageInfo junk msgId0 c0 table = (Returns entry, table') ->
  table' !! msgId0 = Some entry
  /\ c entry = c0
  /\ (table' = table
      \/ table !! msgId0 = None
         /\ entry = messageInfo_sized junk c0 msgId0
         /\ table' = <[msgId0 := entry]> table).
Proof.
  unfold getMessageInfo. destruct (table !! msgId0) as [fnd|] eqn:Hfnd.
  - destruct (Z.eqb_spec (c fnd) c0) as [Hc|Hc]; simpl; [|done].
    intros [= <- <-]. auto.
  - intros [= <- <-]. rewrite lookup_insert_eq. auto 10.
Qed.

Lemma pristine_empty : pristine ∅.
Proof. intros key entry Hentry. by rewrite lookup_empty in Hentry. Qed.

Lemma joinFragments_replicate_empty (k : nat) : joinFragments (replicate k "") = "".
Proof. unfold joinFragments. induction k as [|k IH]; [reflexivity|exact IH]. Qed.

Lemma joinFragments_from (out : string) (fragments : list string) :
  foldl (fun out fragment => out +:+ fragment) out fragments
  = out +:+ joinFragments fragments.
Proof.
  unfold joinFragments.
  induction fragments as [|x fragments IH] using rev_ind.
  - simpl. by rewrite string_append_empty_r.
  - by rewrite !foldl_snoc, IH, string_append_assoc.
Qed.

Lemma joinFragments_cons (fragment : string) (rest : list string) :
  joinFragments (fragment :: rest) = fragment +:+ joinFragments rest.
Proof. unfold joinFragments at 1. simpl. apply joinFragments_from. Qed.

(** One fragment among empty slots reads back as that fragment. *)
Lemma joinFragments_single (k n : nat) (msg : string) :
  (n < k)%nat -> joinFragments (<[n := msg]> (replicate k "")) = msg.
Proof.
  revert n. induction k as [|k IH]; intros n Hn; [lia|].
  destruct n as [|n]; simpl.
  - by rewrite joinFragments_cons, joinFragments_replicate_empty,
      string_append_empty_r.
  - rewrite joinFragments_cons. simpl. apply IH. lia.
Qed.

Lemma getMessageInfo_pristine (junk : indeterminate) (msgId0 c0 : Z)
    (table : gmap Z messageInfo) :
  pristine table -> pristine (getMessageInfo junk msgId0 c0 table).2.
Proof.
  intros Hpristine. unfold getMessageInfo.
  destruct (table !! msgId0) as [fnd|] eqn:Hfnd.
  - by destruct (negb (c fnd =? c0)).
  - simpl. intros key entry. rewrite lookup_insert.
    case_decide; [|by apply Hpristine].
    intros [= <-]. simpl. by rewrite length_replicate.
Qed.

Lemma parseWyrmholeMessage_pristine (junk : indeterminate) (root : Value)
    (table : gmap Z messageInfo) :
  pristine table -> pristine (parseWyrmholeMessage junk root table).2.
Proof.
  intros Hpristine. unfold parseWyrmholeMessage.
  destruct (wyrmholeHeader root) as [[[[[colonyId0 cmdId] c0] n] type0]|w|u];
    [|done..].
  pose proof (getMessageInfo_pristine junk c0 cmdId table Hpristine) as Hget.
  by destruct (getMessageInfo junk c0 cmdId table) as [[entry|w|u] table1].
Qed.

(** The parser never writes a fragment or a count back into the table: the
    message it returns is built on a copy of the entry.  From a pristine
    table the table stays pristine, and the message returned for a chunk
    holds that chunk's fragment alone, with a received count of one. *)
Lemma parseWyrmholeMessage_single_fragment (junk : indeterminate) (root : Value)
    (table table' : gmap Z messageInfo) (info : messageInfo) :
  pristine table ->
  parseWyrmholeMessage junk root table = (Returns info, table') ->
  pristine table'
  /\ curC info = 1
  /\ asString (index root "msg") = Returns (getString info).
Proof.
  intros Hpristine. unfold parseWyrmholeMessage.
  destruct (wyrmholeHeader root) as [[[[[colonyId0 cmdId] c0] n] type0]|w|u];
    [|done..].
  destruct (getMessageInfo junk c0 cmdId table) as [[entry|w|u] table1] eqn:Hget;
    [|done..].
  intros [= Hfill <-].
  pose proof (getMessageInfo_pristine junk c0 cmdId table Hpristine) as Hpristine1.
  rewrite Hget in Hpristine1. simpl in Hpristine1.
  apply getMessageInfo_returns in Hget as (Hentry & _ & _).
  split; [done|].
  destruct (Hpristine1 _ _ Hentry) as (HcurC & Hmsgs).
  unfold fillMessageInfo in Hfill. simpl in Hfill.
  destruct (asString (index root "msg")) as [msg|w|u]; simpl in Hfill; [|done..].
  unfold vector_assign in Hfill.
  destruct ((0 <=? n) && (n <? Z.of_nat (length (msgs entry)))) eqn:Hn;
    simpl in Hfill; [|done].
  injection Hfill as <-. simpl. rewrite HcurC. split; [reflexivity|].
  f_equal. unfold getString. simpl. rewrite Hmsgs.
  symmetry. apply joinFragments_single.
  apply andb_true_iff in Hn as [Hn0%Z.leb_le Hn%Z.ltb_lt]. lia.
Qed.

(** Whatever the order and whatever repeats, a run of deliveries from a
    pristine table returns, for each chunk parsed, a message that holds the
    fragment of one of the documents and nothing else. *)
Lemma deliver_single_fragments (junk : indeterminate) (docs : list Value) :
  forall table, pristine table ->
    Forall (fun parsed => forall info, parsed = Returns info ->
              curC info = 1
              /\ exists doc, doc ∈ docs
                   /\ asString (index doc "msg") = Returns (getString info))
           (deliver junk docs table).
Proof.
  induction docs as [|doc docs IH]; intros table Hpristine; simpl; [constructor|].
  pose proof (parseWyrmholeMessage_pristine junk doc table Hpristine) as Hnext.
  destruct (parseWyrmholeMessage junk doc table) as [parsed table'] eqn:Hparse.
  constructor.
  - intros info ->.
    destruct (parseWyrmholeMessage_single_fragment _ _ _ _ _ Hpristine Hparse)
      as (_ & HcurC & Htext).
    split; [done|]. exists doc. split; [left|done].
  - eapply Forall_impl; [by apply IH|]. simpl.
    intros parsed' Hparsed info Hinfo.
    destruct (Hparsed info Hinfo) as (HcurC & doc' & Hin & Htext).
    split; [done|]. exists doc'. split; [by right|done].
Qed.

(** The two header fields that decide the table lookup. *)
Lemma wyrmholeHeader_returns (root : Value) (colonyId0 cmdId c0 n : Z)
    (type0 : MessageType) :
  wyrmholeHeader root = Returns (colonyId0, cmdId, c0, n, type0) ->
  asUInt (index root "cmdId") = Returns cmdId
  /\ asUInt (get root "c" (intValue 1)) = Returns c0.
Proof.
  unfold wyrmholeHeader.
  destruct (_ || _); [done|].
  destruct (if isMember root "colonyId" then _ else _) as [col|w|u]; simpl;
    [|done..].
  destruct (asUInt (index root "cmdId")) as [id|w|u]; simpl; [|done..].
  destruct (asUInt (get root "c" (intValue 1))) as [k|w|u]; simpl; [|done..].
  destruct (if 1 <? k then _ else _) as [n'|w|u]; simpl; [|done..].
  destruct (if isMember root "type" then _ else _) as [t|w|u]; simpl; [|done..].
  by intros [= <- <- <- <- <-].
Qed.

(** Completeness of the message returned for a chunk, in terms of the
    document's [c] and [cmdId] members and the table alone. *)
Lemma parseWyrmholeMessage_completeness (junk : indeterminate) (root : Value)
    (table table' : gmap Z messageInfo) (info : messageInfo) :
  parseWyrmholeMessage junk root table = (Returns info, table') ->
  exists cmdId c0,
    asUInt (index root "cmdId") = Returns cmdId
    /\ asUInt (get root "c" (intValue 1)) = Returns c0
    /\ isComplete info
       = match table !! c0 with
         | Some entry => c entry <=? to_size_t (curC entry + 1)
         | None => cmdId <=? 1
         end.
Proof.
  unfold parseWyrmholeMessage.
  destruct (wyrmholeHeader root) as [[[[[colonyId0 cmdId] c0] n] type0]|w|u]
    eqn:Hheader; [|done..].
  apply wyrmholeHeader_returns in Hheader as [Hid Hcount].
  intros Hparse. exists cmdId, c0. split; [done|]. split; [done|].
  revert Hparse. unfold getMessageInfo.
  destruct (table !! c0) as [fnd|].
  - destruct (negb (c fnd =? cmdId)); [done|]. intros [= Hfill <-].
    unfold fillMessageInfo in Hfill. simpl in Hfill.
    destruct (asString (index root "msg")) as [msg|w|u]; simpl in Hfill; [|done..].
    destruct (vector_assign (msgs fnd) n msg) as [msgs'|w|u]; simpl in Hfill;
      [|done..].
    by injection Hfill as <-.
  - intros [= Hfill <-].
    unfold fillMessageInfo in Hfill. simpl in Hfill.
    destruct (asString (index root "msg")) as [msg|w|u]; simpl in Hfill; [|done..].
    destruct (vector_assign _ n msg) as [msgs'|w|u]; simpl in Hfill; [|done..].
    by injection Hfill as <-.
Qed.


(** ** Claims about the parser *)

(** C9: a chunk document with [c = 2], sequence number [n = 3] and every
    field the parser validates passes the header checks, and the fragment
    write then indexes the two-slot vector at 2: the index is never compared
    with the declared count. *)
Theorem parseWyrmholeMessage_index_unchecked :
  exists c0 cmdId n msg,
    1 < c0 /\ c0 < n
    /\ isMember (chunkDocument c0 cmdId n msg) "msg" = true
    /\ wyrmholeHeader (chunkDocument c0 cmdId n msg)
       = Returns (0, cmdId, c0, n - 1, COMMAND)
    /\ forall junk,
         (exists entry table',
            getMessageInfo junk c0 cmdId ∅ = (Returns entry, table')
            /\ Z.of_nat (length (msgs entry)) <= n - 1)
         /\ (parseWyrmholeMessage junk (chunkDocument c0 cmdId n msg) ∅).1
            = Undefined vector_index_out_of_range.
Proof.
  exists 2, 2, 3, "x". split; [lia|]. split; [lia|].
  split; [reflexivity|]. split; [reflexivity|].
  intros junk. split; [|reflexivity].
  do 2 eexists. split; [reflexivity|]. simpl. lia.
Qed.

(** C7, at two chunks of one message: the table is keyed by the declared
    count, so a later chunk of [cmdId = 7] that declares 3 chunks where the
    first declared 2 opens a second entry and parses without error. *)
Theorem later_chunk_with_other_count_accepted (junk : indeterminate) :
  exists info1 table1 info2 table2,
    parseWyrmholeMessage junk (chunkDocument 2 7 1 "a") ∅
    = (Returns info1, table1)
    /\ parseWyrmholeMessage junk (chunkDocument 3 7 1 "b") table1
       = (Returns info2, table2)
    /\ dom table2 = {[ 2; 3 ]}.
Proof.
  destruct junk. do 4 eexists.
  split; [reflexivity|]. split; [reflexivity|].
  vm_compute. reflexivity.
Qed.

(** The same keying makes two single-chunk messages collide: after
    [cmdId = 1], the chunk of [cmdId = 2] is refused as a size mismatch. *)
Lemma unrelated_message_rejected (junk : indeterminate) :
  exists info1 table1,
    parseWyrmholeMessage junk (chunkDocument 1 1 1 "a") ∅
    = (Returns info1, table1)
    /\ parseWyrmholeMessage junk (chunkDocument 1 2 1 "b") table1
       = (Throws "Invalid sequence size; sequence size already set", table1).
Proof. destruct junk. do 2 eexists. split; reflexivity. Qed.

(** C4, at three deliveries on an empty table.  A message of two chunks
    under [cmdId = 1] is complete on the arrival of chunk 1 alone, one index
    of two being covered.  Under [cmdId = 2] it is never complete: not when
    chunks 1 and 2 have both arrived, and not when chunk 1 arrives three
    times; every message returned has a received count of 1.  Completeness
    follows neither the coverage of distinct indices nor the number of
    arrivals. *)
Theorem completeness_not_by_coverage (junk : indeterminate) :
  (exists info,
     deliver junk [chunkDocument 2 1 1 "a"] ∅ = [Returns info]
     /\ completeByCoverage 2 [1] = false
     /\ isComplete info = true)
  /\ (exists info1 info2,
        deliver junk [chunkDocument 2 2 1 "a"; chunkDocument 2 2 2 "b"] ∅
        = [Returns info1; Returns info2]
        /\ completeByCoverage 2 [1; 2] = true
        /\ isComplete info1 = false /\ isComplete info2 = false
        /\ curC info1 = 1 /\ curC info2 = 1
        /\ msgs info2 = [""; "b"])
  /\ (exists info1 info2 info3,
        deliver junk [chunkDocument 2 2 1 "a"; chunkDocument 2 2 1 "a";
                      chunkDocument 2 2 1 "a"] ∅
        = [Returns info1; Returns info2; Returns info3]
        /\ completeByCoverage 2 [1; 1; 1] = false
        /\ isComplete info1 = false /\ isComplete info2 = false
        /\ isComplete info3 = false
        /\ curC info3 = 1).
Proof.
  destruct junk. split; [|split].
  - eexists. split; [reflexivity|]. split; reflexivity.
  - do 2 eexists. split; [reflexivity|]. repeat split; reflexivity.
  - do 3 eexists. split; [reflexivity|]. repeat split; reflexivity.
Qed.

(** The sequence number of a chunk has no part in the completeness of the
    message returned for it. *)
Lemma completeness_ignores_sequence_number (junk : indeterminate) (root : Value)
    (n1 n2 : Value) (table table1 table2 : gmap Z messageInfo)
    (info1 info2 : messageInfo) :
  parseWyrmholeMessage junk (assign root "n" n1) table = (Returns info1, table1) ->
  parseWyrmholeMessage junk (assign root "n" n2) table = (Returns info2, table2) ->
  isComplete info1 = isComplete info2.
Proof.
  intros Hparse1 Hparse2.
  apply parseWyrmholeMessage_completeness in Hparse1
    as (cmdId1 & c1 & Hid1 & Hcount1 & ->).
  apply parseWyrmholeMessage_completeness in Hparse2
    as (cmdId2 & c2 & Hid2 & Hcount2 & ->).
  rewrite index_assign_ne in Hid1, Hid2 by done.
  rewrite get_assign_ne in Hcount1, Hcount2 by done.
  rewrite Hid1 in Hid2. rewrite Hcount1 in Hcount2.
  injection Hid2 as ->. by injection Hcount2 as ->.
Qed.

(** C2, at a one-byte payload with [cmdId = 5]: [sendCommand] writes one
    document, and the parser, which sizes the entry by the message id,
    returns for it a message of five slots that is not complete. *)
Theorem chunk_roundtrip_not_reassembled (junk : indeterminate) :
  exists doc info table',
    sendCommand 0 5 "a" 1 "cmd" = (Returns FW_SUCCESS, [doc])
    /\ isObject doc = true
    /\ isMember doc "cmd" = false
    /\ isMember doc "msg" = true
    /\ parseWyrmholeMessage junk doc ∅ = (Returns info, table')
    /\ c info = 5
    /\ curC info = 1
    /\ isComplete info = false.
Proof.
  destruct junk. do 3 eexists.
  split; [reflexivity|]. split; [reflexivity|]. split; [reflexivity|].
  split; [reflexivity|]. split; [reflexivity|]. split; [reflexivity|].
  split; reflexivity.
Qed.

(** No payload that needs more than one chunk comes back: whatever chunks
    of it are delivered, in whatever order, every message the parser returns
    holds one fragment of at most [maxCommandSize] bytes. *)
Lemma multi_chunk_payload_never_reassembled (junk : indeterminate)
    (colonyId0 cmdId : Z) (payload type0 : string) (docs order : list Value) :
  maxCommandSize < Z.of_nat (String.length payload) < 2 ^ 31 ->
  sendCommand colonyId0 cmdId payload (Z.of_nat (String.length payload)) type0
  = (Returns FW_SUCCESS, docs) ->
  order ⊆ docs ->
  Forall (fun parsed => forall info, parsed = Returns info ->
            getString info ≠ payload)
         (deliver junk order ∅).
Proof.
  intros Hlen Hsend Horder.
  destruct (sendCommand_in_range colonyId0 cmdId payload type0)
    as (docs' & Hsend' & _ & Hdocs & _); [lia|].
  rewrite Hsend in Hsend'. injection Hsend' as <-.
  eapply Forall_impl; [apply deliver_single_fragments, pristine_empty|].
  simpl. intros parsed Hparsed info Hinfo.
  destruct (Hparsed info Hinfo) as (_ & doc & Hin & Htext).
  apply Horder, list_elem_of_lookup in Hin as [j Hj].
  destruct (Hdocs j doc Hj) as (_ & _ & _ & _ & _ & _ & Hsize).
  assert (getString info = fragmentOf doc) as ->.
  { unfold fragmentOf in *.
    destruct (index doc "msg"); simpl in *; try lia. congruence. }
  intros Heq. rewrite Heq in Hsize. lia.
Qed.

(** ** Claims about [messageIn] *)

Section MessageIn.

Context `{env : Collaborators}.

(** What [messageIn] makes of a parse failure: an Error message whose
    text is the handler's [what()] and whose counts are whatever the
    uninitialised members hold. *)
Lemma messageIn_parse_error (junk : indeterminate) (msg what : string)
    (ml : MainLoop) (table' : gmap Z messageInfo) :
  parseIncomingMessage junk msg (msgMap ml) = (Throws what, table') ->
  messageIn junk msg ml
  = let processedMsg := messageInfo_typed junk ERROR (caught_what what) in
    let ml' := set_msgMap table' ml in
    Returns (if any_c junk <=? any_curC junk
             then set_messagesIn (m_messagesIn ml ++ [processedMsg]) ml'
             else ml').
Proof.
  intros Hparse. unfold messageIn. rewrite Hparse. simpl.
  unfold isComplete. simpl. by destruct (any_c junk <=? any_curC junk).
Qed.

(** Every way in which [parseIncomingMessage] itself refuses a text. *)
Lemma parseIncomingMessage_rejects (junk : indeterminate) (msg : string)
    (table : gmap Z messageInfo) :
  (Reader_parse msg = None ->
     parseIncomingMessage junk msg table = (Throws "Invalid json", table))
  /\ (forall root, Reader_parse msg = Some root -> isObject root = false ->
        parseIncomingMessage junk msg table = (Throws "Invalid message", table))
  /\ (forall root, Reader_parse msg = Some root -> isObject root = true ->
        isMember root "cmd" = false -> isMember root "msg" = false ->
        parseIncomingMessage junk msg table = (Throws "Unknown message", table)).
Proof.
  unfold parseIncomingMessage. split; [|split].
  - by intros ->.
  - by intros root -> ->.
  - by intros root -> -> -> ->.
Qed.

(** A message that the parser returns incomplete is not queued. *)
Lemma messageIn_incomplete_not_enqueued (junk : indeterminate) (msg : string)
    (ml : MainLoop) (info : messageInfo) (table' : gmap Z messageInfo) :
  parseIncomingMessage junk msg (msgMap ml) = (Returns info, table') ->
  isComplete info = false ->
  messageIn junk msg ml = Returns (set_msgMap table' ml).
Proof.
  intros Hparse Hcomplete. unfold messageIn. rewrite Hparse. simpl.
  by rewrite Hcomplete.
Qed.

(** C6, where the uninitialised counts say "incomplete": whatever the text
    and whatever the parse error, [messageIn] builds the Error message and
    then drops it; the inbound queue is as it was. *)
Theorem messageIn_parse_error_dropped (junk : indeterminate) (msg what : string)
    (ml : MainLoop) (table' : gmap Z messageInfo) :
  parseIncomingMessage junk msg (msgMap ml) = (Throws what, table') ->
  any_curC junk < any_c junk ->
  exists ml',
    messageIn junk msg ml = Returns ml'
    /\ m_messagesIn ml' = m_messagesIn ml.
Proof.
  intros Hparse Hjunk. rewrite (messageIn_parse_error _ _ _ _ _ Hparse).
  cbv zeta. destruct (Z.leb_spec (any_c junk) (any_curC junk)); [lia|].
  by eexists.
Qed.

(** With counts that happen to say "complete" the Error message is queued,
    carrying the text that the handler's copy of the exception reports. *)
Lemma messageIn_parse_error_enqueued (junk : indeterminate) (msg what : string)
    (ml : MainLoop) (table' : gmap Z messageInfo) :
  parseIncomingMessage junk msg (msgMap ml) = (Throws what, table') ->
  any_c junk <= any_curC junk ->
  exists ml',
    messageIn junk msg ml = Returns ml'
    /\ m_messagesIn ml'
       = m_messagesIn ml ++ [messageInfo_typed junk ERROR (caught_what what)].
Proof.
  intros Hparse Hjunk. rewrite (messageIn_parse_error _ _ _ _ _ Hparse).
  cbv zeta. destruct (Z.leb_spec (any_c junk) (any_curC junk)); [|lia].
  by eexists.
Qed.

End MessageIn.

Lemma messageIn_parse_error_dropped_witness :
  parseIncomingMessage (env := fbtest_collaborators) stale_incomplete "{" (msgMap idle)
  = (Throws "Invalid json", ∅)
  /\ any_curC stale_incomplete < any_c stale_incomplete
  /\ exists ml',
       messageIn (env := fbtest_collaborators) stale_incomplete "{" idle = Returns ml'
       /\ m_messagesIn ml' = m_messagesIn idle.
Proof.
  split; [reflexivity|]. split; [reflexivity|].
  apply (messageIn_parse_error_dropped (env := fbtest_collaborators)
           stale_incomplete "{" "Invalid json" idle ∅); reflexivity.
Defined.

(** ** Claims about the dispatcher *)

Section Dispatch.

Context `{env : Collaborators}.

Lemma hostSend_frame (sent : outcome FW_RESULT * list Value) (ml ml' : MainLoop) :
  hostSend sent ml = Returns ml' ->
  m_messagesIn ml' = m_messagesIn ml
  /\ m_AsyncCalls ml' = m_AsyncCalls ml
  /\ invoked ml' = invoked ml
  /\ m_pluginLoader ml' = m_pluginLoader ml
  /\ cout ml' = cout ml ++ sent.2.
Proof.
  unfold hostSend. destruct sent as [[r|w|u] written]; simpl; [|done..].
  by intros [= <-].
Qed.

(** Dispatching a message touches neither queue and runs no callback. *)
Lemma processBrowserMessage_frame (message : messageInfo) (ml ml' : MainLoop) :
  processBrowserMessage message ml = Returns ml' ->
  m_messagesIn ml' = m_messagesIn ml
  /\ m_AsyncCalls ml' = m_AsyncCalls ml
  /\ invoked ml' = invoked ml.
Proof.
  unfold processBrowserMessage, loadAndAcknowledge.
  destruct (type message); simpl;
    try (destruct (vector_at (msgs message) 0) as [m0|w|u]; simpl; [|done..]);
    try (intros [= <-]; done).
  - destruct (LoadPlugin m0) as [loader|w|u]; [|by intros [= <-]|done].
    destruct (Init loader) as [[]|w|u]; simpl; [| |done]; by intros [= <-].
  - intros Hsend. apply hostSend_frame in Hsend. tauto.
Qed.

(** C1, on every Create message: the dispatcher's second branch tests for
    COMMAND, so a Create message reaches the last [else]; no plugin is
    loaded, and the one document written is the "Unknown message" error. *)
Theorem create_message_not_handled (message : messageInfo) (ml : MainLoop) :
  exists ml',
    processBrowserMessage (set_type CREATE message) ml = Returns ml'
    /\ m_pluginLoader ml' = m_pluginLoader ml
    /\ cout ml'
       = cout ml ++ [objectValue {[ "status" := stringValue "error";
                                    "message" := stringValue "Unknown message" ]}].
Proof. eexists. split; [reflexivity|]. split; reflexivity. Qed.

(** C5, on a Command message whose first fragment the loader accepts: the
    message is not forwarded; its first fragment is loaded as a plugin and
    the success acknowledgment is the only document written. *)
Theorem command_message_loads_plugin (message : messageInfo)
    (fragment : string) (rest : list string) (loader : PluginLoader)
    (ml : MainLoop) :
  type message = COMMAND ->
  msgs message = fragment :: rest ->
  LoadPlugin fragment = Returns loader ->
  Init loader = Returns () ->
  exists ml',
    processBrowserMessage message ml = Returns ml'
    /\ m_pluginLoader ml' = Some loader
    /\ cout ml'
       = cout ml ++ [objectValue {[ "status" := stringValue "success";
                                    "plugin" := stringValue (getPluginName loader) ]}].
Proof.
  intros Htype Hmsgs Hload Hinit.
  unfold processBrowserMessage, loadAndAcknowledge.
  rewrite Htype, Hmsgs. simpl. rewrite Hload, Hinit. simpl.
  eexists. split; [reflexivity|]. split; reflexivity.
Qed.

(** A Command message that the loader refuses is answered with the error
    acknowledgment; it is not forwarded either. *)
Lemma command_message_load_fails (message : messageInfo)
    (fragment what : string) (rest : list string) (ml : MainLoop) :
  type message = COMMAND ->
  msgs message = fragment :: rest ->
  LoadPlugin fragment = Throws what ->
  processBrowserMessage message ml
  = Returns (writeObj {[ "status" := "error"; "message" := caught_what what ]} ml).
Proof.
  intros Htype Hmsgs Hload.
  unfold processBrowserMessage, loadAndAcknowledge.
  rewrite Htype, Hmsgs. simpl. by rewrite Hload.
Qed.

(** A Response message goes to [m_hFuncs.cmdCallback], the host's own
    [doCommandCallback]: its text is chunked and written to the browser. *)
Lemma response_message_sent_back (message : messageInfo) (ml : MainLoop) :
  type message = RESPONSE ->
  processBrowserMessage message ml
  = hostSend (sendCommand (colonyId message) (msgId message) (getString message)
                (to_uint32 (Z.of_nat (String.length (getString message))))
                "resp") ml.
Proof. intros Htype. unfold processBrowserMessage. by rewrite Htype. Qed.

(** An Error message is answered with its text. *)
Lemma error_message_acknowledged (message : messageInfo)
    (text : string) (rest : list string) (ml : MainLoop) :
  type message = ERROR ->
  msgs message = text :: rest ->
  processBrowserMessage message ml
  = Returns (writeObj {[ "status" := "error"; "message" := text ]} ml).
Proof.
  intros Htype Hmsgs. unfold processBrowserMessage. by rewrite Htype, Hmsgs.
Qed.

End Dispatch.

Lemma command_message_loads_plugin_witness :
  let message := {| colonyId := 0; msgId := 1; c := 1; curC := 1;
                    msgs := ["application/x-fbtestplugin"]; type := COMMAND |} in
  let loader := {| Init := Returns (); getPluginName := "FBTestPlugin" |} in
  exists ml',
    processBrowserMessage (env := fbtest_collaborators) message idle = Returns ml'
    /\ m_pluginLoader ml' = Some loader
    /\ cout ml'
       = cout idle ++ [objectValue {[ "status" := stringValue "success";
                                      "plugin" := stringValue (getPluginName loader) ]}].
Proof.
  intros message loader.
  apply (command_message_loads_plugin (env := fbtest_collaborators) message
           "application/x-fbtestplugin" [] loader idle); reflexivity.
Defined.

(** The sequence Create, Command, Response with the test plugin's mimetype
    and payloads "P1" and "P2": the Create message is answered as unknown,
    the Command payload is taken for a mimetype and refused by the loader,
    and the Response payload is chunked back to the browser. *)
Lemma dispatch_create_command_response :
  let create := {| colonyId := 0; msgId := 0; c := 1; curC := 1;
                   msgs := ["application/x-fbtestplugin"]; type := CREATE |} in
  let command := {| colonyId := 0; msgId := 8; c := 1; curC := 1;
                    msgs := ["P1"]; type := COMMAND |} in
  let response := {| colonyId := 0; msgId := 9; c := 1; curC := 1;
                     msgs := ["P2"]; type := RESPONSE |} in
  exists ml',
    (ml1 ← processBrowserMessage (env := fbtest_collaborators) create idle;
     ml2 ← processBrowserMessage (env := fbtest_collaborators) command ml1;
     processBrowserMessage (env := fbtest_collaborators) response ml2)
    = Returns ml'
    /\ m_pluginLoader ml' = None
    /\ cout ml'
       = [ objectValue {[ "status" := stringValue "error";
                          "message" := stringValue "Unknown message" ]};
           objectValue {[ "status" := stringValue "error";
                          "message" := stringValue "std::exception" ]};
           objectValue {[ "c" := uintValue 1; "type" := stringValue "resp";
                          "colonyId" := uintValue 0; "cmdId" := uintValue 9;
                          "n" := uintValue 1; "msg" := stringValue "P2" ]} ].
Proof.
  intros create command response. eexists.
  split; [reflexivity|]. split; reflexivity.
Qed.

(** ** Claims about one pass of the loop *)

Section Pass.

Context `{env : Collaborators}.

Lemma hostCall_frame (h : HostCall) (ml ml' : MainLoop) :
  hostCall h ml = Returns ml' ->
  m_messagesIn ml' = m_messagesIn ml /\ invoked ml' = invoked ml.
Proof.
  destruct h; simpl.
  - by intros [= <-].
  - intros Hsend. apply hostSend_frame in Hsend. tauto.
  - intros Hsend. apply hostSend_frame in Hsend. tauto.
Qed.

Lemma hostCalls_frame (hs : list HostCall) (ml ml' : MainLoop) :
  hostCalls hs ml = Returns ml' ->
  m_messagesIn ml' = m_messagesIn ml /\ invoked ml' = invoked ml.
Proof.
  unfold hostCalls. revert ml'.
  induction hs as [|h hs IH] using rev_ind; intros ml'.
  - by intros [= <-].
  - rewrite foldl_snoc.
    destruct (foldl _ (Returns ml) hs) as [ml1|w|u]; simpl; [|done..].
    intros Hcall. apply hostCall_frame in Hcall as [-> ->]. by apply IH.
Qed.

(** The async half of a pass takes the front call off its queue and runs
    that call, once; the inbound queue is not touched. *)
Lemma runAsyncCall_front (ml ml' : MainLoop) (call : AsyncCall)
    (rest : list AsyncCall) :
  m_AsyncCalls ml = call :: rest ->
  runAsyncCall ml = Returns ml' ->
  invoked ml' = invoked ml ++ [call] /\ m_messagesIn ml' = m_messagesIn ml.
Proof.
  intros Hqueue. unfold runAsyncCall. rewrite Hqueue.
  intros Hcalls. by apply hostCalls_frame in Hcalls as [-> ->].
Qed.

(** C3, on the message half of a pass: with a message at the front of the
    inbound queue, the element removed is the front of the async-call
    queue.  With no call queued the removal is a [pop_front] on an empty
    deque; otherwise the message is dispatched on a loop that has lost the
    call, and afterwards the message is still at the front of its queue
    and the lost call has not been run. *)
Theorem runMessage_pops_async_queue (ml : MainLoop) (message : messageInfo)
    (ms : list messageInfo) :
  m_messagesIn ml = message :: ms ->
  (m_AsyncCalls ml = [] -> runMessage ml = Undefined deque_pop_front_empty)
  /\ (forall call rest, m_AsyncCalls ml = call :: rest ->
        runMessage ml = processBrowserMessage message (set_AsyncCalls rest ml))
  /\ (forall ml', runMessage ml = Returns ml' ->
        m_messagesIn ml' = message :: ms
        /\ m_AsyncCalls ml' = tail (m_AsyncCalls ml)
        /\ invoked ml' = invoked ml).
Proof.
  intros Hmessages. unfold runMessage. rewrite Hmessages.
  split; [by intros ->|]. split; [by intros call rest ->|].
  intros ml'. destruct (m_AsyncCalls ml) as [|call rest]; [done|].
  intros Hdispatch. apply processBrowserMessage_frame in Hdispatch.
  simpl in Hdispatch. by destruct Hdispatch as (-> & -> & ->).
Qed.

(** A pass that finds a message and no async call is undefined. *)
Lemma runPass_message_alone (ml : MainLoop) (message : messageInfo)
    (ms : list messageInfo) :
  m_needsToExit ml = false ->
  m_messagesIn ml = message :: ms ->
  m_AsyncCalls ml = [] ->
  runPass ml = Undefined deque_pop_front_empty.
Proof.
  intros Hexit Hmessages Hcalls.
  unfold runPass, workExists, runAsyncCall, runMessage.
  rewrite Hexit, Hmessages, Hcalls. simpl.
  by rewrite Hmessages, Hcalls.
Qed.

(** So does [run]: a message arriving at an otherwise idle loop takes it
    into the undefined [pop_front] on its first pass. *)
Lemma run_message_alone (passes : nat) (ml : MainLoop) (message : messageInfo)
    (ms : list messageInfo) :
  m_needsToExit ml = false ->
  m_messagesIn ml = message :: ms ->
  m_AsyncCalls ml = [] ->
  run (S passes) ml = Undefined deque_pop_front_empty.
Proof.
  intros Hexit Hmessages Hcalls. cbn [run]. rewrite Hexit.
  by rewrite (runPass_message_alone ml message ms).
Qed.

End Pass.

(** One Error message and two calls queued: the pass runs the first call,
    discards the second without running it, answers the message and leaves
    it queued. *)
Lemma runMessage_pops_async_queue_witness :
  let message := {| colonyId := 0; msgId := 0; c := 0; curC := 0;
                    msgs := ["Invalid json"]; type := ERROR |} in
  let call1 := {| fn := 1; pData := 0 |} in
  let call2 := {| fn := 2; pData := 0 |} in
  let ml := set_messagesIn [message] (set_AsyncCalls [call1; call2] idle) in
  m_messagesIn ml = [message]
  /\ (exists ml',
        runPass (env := fbtest_collaborators) ml = Returns (looped ml')
        /\ m_messagesIn ml' = [message]
        /\ m_AsyncCalls ml' = []
        /\ invoked ml' = [call1])
  /\ (forall ml',
        runMessage (env := fbtest_collaborators) ml = Returns ml' ->
        m_messagesIn ml' = [message]
        /\ m_AsyncCalls ml' = tail (m_AsyncCalls ml)
        /\ invoked ml' = invoked ml).
Proof.
  intros message call1 call2 ml.
  split; [reflexivity|]. split.
  - eexists. split; [reflexivity|]. split; [reflexivity|]. split; reflexivity.
  - apply (runMessage_pops_async_queue (env := fbtest_collaborators) ml message []).
    reflexivity.
Defined.

(** * Further properties of the host *)

(** ** The chunker *)

(** X1: [countChunks] is the ceiling of [size / maxCommandSize]: it is [k]
    exactly when [size] lies above [k - 1] full chunks and within [k]. *)
Theorem countChunks_is_ceiling (size k : Z) :
  countChunks size = k
  <-> maxCommandSize * (k - 1) < size <= maxCommandSize * k.
Proof.
  split.
  - intros <-. apply countChunks_bounds.
  - intros Hk. pose proof (countChunks_bounds size) as Hc.
    unfold maxCommandSize in *. nia.
Qed.

(** X2: for a payload shorter than [2^31] bytes whose length is the one
    passed, [sendCommand] returns [FW_SUCCESS] after writing [countChunks]
    documents.  Each carries the count, the direction tag and both
    identifiers; document [j] (from 0) is numbered [j + 1]; every document
    but the last carries exactly [maxCommandSize] bytes and the last carries
    the rest; joined in the order written the fragments are the payload. *)
Theorem sendCommand_chunks_payload (colonyId0 cmdId : Z) (payload type0 : string) :
  Z.of_nat (String.length payload) < 2 ^ 31 ->
  exists docs,
    sendCommand colonyId0 cmdId payload (Z.of_nat (String.length payload)) type0
    = (Returns FW_SUCCESS, docs)
    /\ Z.of_nat (length docs) = countChunks (Z.of_nat (String.length payload))
    /\ joinFragments (fragmentOf <$> docs) = payload
    /\ forall (j : nat) (d : Value), docs !! j = Some d ->
         index d "c" = uintValue (countChunks (Z.of_nat (String.length payload)))
         /\ index d "type" = stringValue type0
         /\ index d "colonyId" = uintValue colonyId0
         /\ index d "cmdId" = uintValue cmdId
         /\ index d "n" = uintValue (Z.of_nat j + 1)
         /\ Z.of_nat (String.length (fragmentOf d))
            = if Z.of_nat j + 1 <? countChunks (Z.of_nat (String.length payload))
              then maxCommandSize
              else Z.of_nat (String.length payload) - maxCommandSize * Z.of_nat j.
Proof.
  intros Hlen.
  destruct (sendCommand_in_range colonyId0 cmdId payload type0 Hlen)
    as (docs & Hrun & Hcount & Hdocs & Hjoin).
  exists docs. split; [done|]. split; [done|]. split; [done|].
  intros j d Hj.
  destruct (Hdocs j d Hj) as (Hc & Htype & Hcolony & Hid & Hn & Hslice & _).
  do 5 (split; [done|]).
  pose proof (countChunks_bounds (Z.of_nat (String.length payload))) as Hbounds.
  assert (Z.of_nat j < countChunks (Z.of_nat (String.length payload))) as Hj'
    by (apply lookup_lt_Some in Hj; lia).
  rewrite Hslice, payloadSlice_length
    by (unfold maxCommandSize in *; lia).
  destruct (Z.ltb_spec (Z.of_nat j + 1)
              (countChunks (Z.of_nat (String.length payload))));
    unfold maxCommandSize in *; lia.
Qed.

Lemma sendCommand_chunks_payload_witness :
  Z.of_nat (String.length "abc") < 2 ^ 31
  /\ exists docs,
       sendCommand 0 4 "abc" (Z.of_nat (String.length "abc")) "cmd"
       = (Returns FW_SUCCESS, docs)
       /\ Z.of_nat (length docs) = countChunks (Z.of_nat (String.length "abc"))
       /\ joinFragments (fragmentOf <$> docs) = "abc".
Proof.
  split; [reflexivity|].
  destruct (sendCommand_chunks_payload 0 4 "abc" "cmd")
    as (docs & Hrun & Hcount & Hjoin & _); [reflexivity|].
  exists docs. by repeat split.
Defined.

Lemma substring_length_le (s : string) (n m : nat) :
  (String.length (substring n m s) <= m)%nat.
Proof.
  revert n m. induction s as [|ch s IH]; intros [|n] [|m]; simpl; try lia.
  - specialize (IH 0%nat m). lia.
  - apply IH.
  - apply IH.
Qed.

Lemma chunkLength_range (strCommandLen i : Z) :
  - 2 ^ 31 <= chunkLength strCommandLen i <= maxCommandSize.
Proof.
  unfold chunkLength. rewrite (to_int_small maxCommandSize)
    by (unfold maxCommandSize; lia).
  set (z := to_size_t _). unfold to_int, uint32_modulus.
  pose proof (Z.mod_pos_bound (z + 2 ^ 31) (2 ^ 32) ltac:(lia)).
  unfold maxCommandSize. lia.
Qed.

Lemma string_from_buffer_length (buffer fragment : string) (off count : Z) :
  - 2 ^ 31 <= count <= maxCommandSize ->
  string_from_buffer buffer off count = Returns fragment ->
  Z.of_nat (String.length fragment) <= maxCommandSize.
Proof.
  intros Hcount. unfold string_from_buffer.
  destruct (Z.ltb_spec string_max_size (to_size_t count)) as [|Hmax]; [done|].
  destruct (_ && _); [|done]. intros [= <-].
  pose proof (substring_length_le buffer (Z.to_nat off) (Z.to_nat (to_size_t count))).
  assert (to_size_t count <= maxCommandSize);
    [|unfold maxCommandSize in *; lia].
  destruct (Z.le_gt_cases 0 count) as [Hpos|Hneg].
  - rewrite to_size_t_small; [lia|].
    unfold size_t_modulus, maxCommandSize in *. lia.
  - exfalso. unfold to_size_t, size_t_modulus, string_max_size in *.
    rewrite <- (Z.mod_unique_pos count (2 ^ 64) (- 1) (count + 2 ^ 64))
      in Hmax; lia.
Qed.

Lemma sendChunks_fragments (strCommand : string) (strCommandLen : Z)
    (remaining : nat) :
  forall (root : Value) (i : Z) (d : Value),
    d ∈ (sendChunks root strCommand strCommandLen i remaining).2 ->
    Z.of_nat (String.length (fragmentOf d)) <= maxCommandSize.
Proof.
  induction remaining as [|k IH]; intros root i d; cbn [sendChunks].
  - simpl. by intros ?%elem_of_nil.
  - destruct (string_from_buffer _ _ _) as [fragment|w|u] eqn:Hfragment;
      [|simpl; by intros ?%elem_of_nil..].
    apply string_from_buffer_length in Hfragment; [|apply chunkLength_range].
    destruct (sendChunks _ strCommand strCommandLen (i + 1) k)
      as [r written] eqn:Hrest.
    simpl. intros [->|Hin]%elem_of_cons.
    + unfold fragmentOf. by rewrite index_assign_eq.
    + eapply (IH _ (i + 1)). by rewrite Hrest.
Qed.

(** X3: whatever buffer, length and identifiers it is given, and whether it
    returns or fails part-way, [sendCommand] never writes a document whose
    fragment is longer than [maxCommandSize] bytes. *)
Theorem sendCommand_fragments_within_ceiling (colonyId0 cmdId : Z)
    (strCommand type0 : string) (strCommandLen : Z) (d : Value) :
  d ∈ (sendCommand colonyId0 cmdId strCommand strCommandLen type0).2 ->
  Z.of_nat (String.length (fragmentOf d)) <= maxCommandSize.
Proof.
  unfold sendCommand.
  destruct (sendChunks _ strCommand strCommandLen 0 _) as [r written] eqn:Hrun.
  simpl. intros Hin. eapply sendChunks_fragments. by rewrite Hrun.
Qed.

Lemma sendCommand_fragments_within_ceiling_witness :
  exists d,
    d ∈ (sendCommand 0 4 "abc" 3 "cmd").2
    /\ Z.of_nat (String.length (fragmentOf d)) <= maxCommandSize.
Proof.
  eexists. split; [left|].
  apply (sendCommand_fragments_within_ceiling 0 4 "abc" "cmd" 3). left.
Defined.

Lemma assign_commute (v : Value) (key key' : string) (x y : Value) :
  key ≠ key' ->
  assign (assign v key x) key' y = assign (assign v key' y) key x.
Proof.
  intros Hne. destruct v; simpl; f_equal;
    rewrite <- ?insert_empty; by apply insert_insert_ne.
Qed.

Lemma assign_assign (v : Value) (key : string) (x y : Value) :
  assign (assign v key x) key y = assign v key y.
Proof.
  destruct v; simpl; f_equal;
    rewrite <- ?insert_empty; by rewrite insert_insert_eq.
Qed.

(** Setting the direction tag before the loop or on each document written
    comes to the same. *)
Lemma sendChunks_retag (tag : Value) (strCommand : string) (strCommandLen : Z)
    (remaining : nat) :
  forall (root : Value) (i : Z),
    sendChunks (assign root "type" tag) strCommand strCommandLen i remaining
    = let (r, written) := sendChunks root strCommand strCommandLen i remaining in
      (r, (fun d => assign d "type" tag) <$> written).
Proof.
  induction remaining as [|k IH]; intros root i; cbn [sendChunks]; [done|].
  destruct (string_from_buffer _ _ _) as [fragment|w|u]; [|done..].
  rewrite (assign_commute root "type" "n") by done.
  rewrite (assign_commute _ "type" "msg") by done.
  rewrite IH. by destruct (sendChunks _ strCommand strCommandLen (i + 1) k).
Qed.

(** X4: [doCommand] and [doCommandCallback] differ in the direction tag and
    in nothing else: on the same arguments they end the same way, and the
    documents of one are the documents of the other with [type] set to
    ["resp"] instead of ["cmd"]. *)
Theorem command_and_response_differ_in_tag (colonyId0 cmdId : Z)
    (buffer : string) (len : Z) :
  (doCommandCallback colonyId0 cmdId buffer len).1
  = (doCommand colonyId0 cmdId buffer len).1
  /\ (doCommandCallback colonyId0 cmdId buffer len).2
     = (fun d => assign d "type" (stringValue "resp"))
         <$> (doCommand colonyId0 cmdId buffer len).2
  /\ forall d, d ∈ (doCommand colonyId0 cmdId buffer len).2 ->
       index d "type" = stringValue "cmd".
Proof.
  unfold doCommand, doCommandCallback, sendCommand.
  set (root := assign (objectValue ∅) "c" (uintValue (countChunks len))).
  assert (forall tag,
            assign (assign (assign root "type" (stringValue tag)) "colonyId"
                      (uintValue colonyId0)) "cmdId" (uintValue cmdId)
            = assign (assign (assign root "colonyId" (uintValue colonyId0))
                        "cmdId" (uintValue cmdId)) "type" (stringValue tag))
    as Htag.
  { intros tag. rewrite (assign_commute root "type" "colonyId") by done.
    by rewrite (assign_commute _ "type" "cmdId"). }
  rewrite !Htag, !sendChunks_retag.
  destruct (sendChunks _ buffer len 0 _) as [r written]. simpl.
  split; [done|]. split.
  - rewrite <- list_fmap_compose. apply list_fmap_ext.
    intros j d _. simpl. by rewrite assign_assign.
  - intros d (d' & -> & _)%list_elem_of_fmap. apply index_assign_eq.
Qed.

(** ** Frames *)

Lemma little_endian_bytes (a : Z) :
  0 <= a ->
  Z.land (Z.shiftr a 0) 255 + 2 ^ 8 * Z.land (Z.shiftr a 8) 255
  + 2 ^ 16 * Z.land (Z.shiftr a 16) 255 + 2 ^ 24 * Z.land (Z.shiftr a 24) 255
  = a mod 2 ^ 32.
Proof.
  intros Ha. change 255 with (Z.ones 8).
  rewrite !Z.land_ones, !Z.shiftr_div_pow2 by lia.
  change (2 ^ 0) with 1. rewrite Z.div_1_r.
  pose proof (Z.div_mod a (2 ^ 8) ltac:(lia)) as H0.
  pose proof (Z.div_mod (a / 2 ^ 8) (2 ^ 8) ltac:(lia)) as H1.
  pose proof (Z.div_mod (a / 2 ^ 8 / 2 ^ 8) (2 ^ 8) ltac:(lia)) as H2.
  pose proof (Z.div_mod (a / 2 ^ 8 / 2 ^ 8 / 2 ^ 8) (2 ^ 8) ltac:(lia)) as H3.
  pose proof (Z.mod_pos_bound a (2 ^ 8) ltac:(lia)).
  pose proof (Z.mod_pos_bound (a / 2 ^ 8) (2 ^ 8) ltac:(lia)).
  pose proof (Z.mod_pos_bound (a / 2 ^ 8 / 2 ^ 8) (2 ^ 8) ltac:(lia)).
  pose proof (Z.mod_pos_bound (a / 2 ^ 8 / 2 ^ 8 / 2 ^ 8) (2 ^ 8) ltac:(lia)).
  replace (a / 2 ^ 16) with (a / 2 ^ 8 / 2 ^ 8)
    by (rewrite Z.div_div by lia; reflexivity).
  replace (a / 2 ^ 24) with (a / 2 ^ 8 / 2 ^ 8 / 2 ^ 8)
    by (rewrite !Z.div_div by lia; reflexivity).
  apply (Z.mod_unique_pos _ _ (a / 2 ^ 8 / 2 ^ 8 / 2 ^ 8 / 2 ^ 8)); lia.
Qed.

Lemma N_of_ascii_byte (z : Z) :
  Z.of_N (N_of_ascii (ascii_of_N (Z.to_N (Z.land z 255)))) = Z.land z 255.
Proof.
  assert (0 <= Z.land z 255 < 256) as Hbyte.
  { change 255 with (Z.ones 8). rewrite Z.land_ones by lia.
    apply Z.mod_pos_bound. lia. }
  rewrite N_ascii_embedding by lia. lia.
Qed.

(** X5: a frame is four prefix bytes followed by the text unchanged, and the
    prefix read least significant byte first is the length of the text
    modulo [2^32]: lengths from [2^32] on are announced short. *)
Theorem writeMessage_prefix (output : string) :
  exists b0 b1 b2 b3,
    writeMessage output = String b0 (String b1 (String b2 (String b3 output)))
    /\ frameLength b0 b1 b2 b3 = Z.of_nat (String.length output) mod 2 ^ 32.
Proof.
  unfold writeMessage. do 4 eexists. split; [reflexivity|].
  unfold frameLength. rewrite !N_of_ascii_byte.
  apply little_endian_bytes. lia.
Qed.

Lemma string_length_append (s1 s2 : string) :
  String.length (s1 +:+ s2) = (String.length s1 + String.length s2)%nat.
Proof.
  induction s1 as [|ch s1 IH]; [reflexivity|].
  rewrite string_append_cons. simpl. by rewrite IH.
Qed.

Lemma substring_append_left (s1 s2 : string) :
  substring 0 (String.length s1) (s1 +:+ s2) = s1.
Proof.
  induction s1 as [|ch s1 IH]; [by destruct s2|].
  rewrite string_append_cons. simpl. by rewrite IH.
Qed.

Lemma substring_append_right (s1 s2 : string) :
  substring (String.length s1) (String.length s2) (s1 +:+ s2) = s2.
Proof.
  induction s1 as [|ch s1 IH]; [apply substring_all|].
  rewrite string_append_cons. exact IH.
Qed.

(** X6: reading undoes writing.  For a text shorter than [2^32] bytes, the
    first frame of a stream that starts with [writeMessage]'s output is that
    text, and what remains is the rest of the stream untouched. *)
Theorem readFrame_writeMessage (output rest : string) :
  Z.of_nat (String.length output) < 2 ^ 32 ->
  readFrame (writeMessage output +:+ rest) = Some (output, rest).
Proof.
  intros Hlen. unfold writeMessage.
  rewrite !string_append_cons. cbn [readFrame].
  unfold frameLength. rewrite !N_of_ascii_byte, little_endian_bytes by lia.
  rewrite Z.mod_small, Nat2Z.id by lia.
  rewrite string_length_append.
  destruct (Nat.leb_spec (String.length output)
              (String.length output + String.length rest)); [|lia].
  replace (String.length output + String.length rest - String.length output)%nat
    with (String.length rest) by lia.
  by rewrite substring_append_left, substring_append_right.
Qed.

Lemma readFrame_writeMessage_witness :
  Z.of_nat (String.length "{}") < 2 ^ 32
  /\ readFrame (writeMessage "{}" +:+ writeMessage "[1]")
     = Some ("{}", writeMessage "[1]").
Proof.
  split; [reflexivity|].
  apply (readFrame_writeMessage "{}" (writeMessage "[1]")). reflexivity.
Defined.

(** ** Message records and the pending-message table *)

(** X7: the text that [getString] returns has exactly the length that its
    first loop adds up for [reserve]: the sum of the fragments' lengths,
    empty slots counting for nothing. *)
Theorem getString_length (m : messageInfo) :
  String.length (getString m) = sum_list (String.length <$> msgs m).
Proof.
  change (getString m) with (joinFragments (msgs m)).
  induction (msgs m) as [|fragment rest IH]; [reflexivity|].
  rewrite joinFragments_cons, string_length_append, IH. reflexivity.
Qed.

(** X8: looking an identifier up again.  Once [getMessageInfo] has returned
    an entry for an identifier and a size, asking again with the same size
    returns the same entry and leaves the table as it is, asking with any
    other size throws and leaves the table as it is, and no other identifier
    was touched by the first call. *)
Theorem getMessageInfo_second_call (junk : indeterminate) (msgId0 c0 : Z)
    (table table1 : gmap Z messageInfo) (entry : messageInfo) :
  getMessageInfo junk msgId0 c0 table = (Returns entry, table1) ->
  getMessageInfo junk msgId0 c0 table1 = (Returns entry, table1)
  /\ (forall c1, c1 ≠ c0 ->
        getMessageInfo junk msgId0 c1 table1
        = (Throws "Invalid sequence size; sequence size already set", table1))
  /\ (forall other, other ≠ msgId0 -> table1 !! other = table !! other).
Proof.
  intros Hfirst.
  apply getMessageInfo_returns in Hfirst as (Hentry & Hsize & Htable).
  split; [|split].
  - unfold getMessageInfo. rewrite Hentry, Hsize, Z.eqb_refl. reflexivity.
  - intros c1 Hc1. unfold getMessageInfo. rewrite Hentry, Hsize.
    destruct (Z.eqb_spec c0 c1); [congruence|reflexivity].
  - intros other Hother. destruct Htable as [->|(_ & _ & ->)]; [done|].
    by rewrite lookup_insert_ne.
Qed.

Lemma getMessageInfo_second_call_witness :
  exists entry table1,
    getMessageInfo stale_zero 3 2 ∅ = (Returns entry, table1)
    /\ getMessageInfo stale_zero 3 2 table1 = (Returns entry, table1)
    /\ msgs entry = [""; ""].
Proof.
  do 2 eexists. split; [reflexivity|]. split; [|reflexivity].
  apply (getMessageInfo_second_call stale_zero 3 2 ∅). reflexivity.
Defined.

Lemma getMessageInfo_table_grows (junk : indeterminate) (msgId0 c0 : Z)
    (table : gmap Z messageInfo) :
  table ⊆ (getMessageInfo junk msgId0 c0 table).2
  /\ (size (getMessageInfo junk msgId0 c0 table).2 <= S (size table))%nat.
Proof.
  unfold getMessageInfo. destruct (table !! msgId0) as [fnd|] eqn:Hfnd.
  - destruct (negb (c fnd =? c0)); simpl; split; (done || lia).
  - simpl. split; [by apply insert_subseteq|].
    by rewrite map_size_insert_None.
Qed.

Lemma parseWyrmholeMessage_table_grows (junk : indeterminate) (root : Value)
    (table : gmap Z messageInfo) :
  table ⊆ (parseWyrmholeMessage junk root table).2
  /\ (size (parseWyrmholeMessage junk root table).2 <= S (size table))%nat.
Proof.
  unfold parseWyrmholeMessage.
  destruct (wyrmholeHeader root) as [[[[[colonyId0 cmdId] c0] n] type0]|w|u];
    [|simpl; split; (done || lia)..].
  pose proof (getMessageInfo_table_grows junk c0 cmdId table) as Hget.
  by destruct (getMessageInfo junk c0 cmdId table) as [[entry|w|u] table1].
Qed.

(** ** The envelope parser *)

(** X9: parsing only ever adds to the pending-message table.  Whatever the
    text and however the parse ends, every entry that was in the table is
    still there unchanged afterwards, and at most one entry is new: nothing
    is updated and nothing is removed. *)
Theorem parseIncomingMessage_table_grows `{env : Collaborators}
    (junk : indeterminate) (msg : string) (table : gmap Z messageInfo) :
  table ⊆ (parseIncomingMessage junk msg table).2
  /\ (size (parseIncomingMessage junk msg table).2 <= S (size table))%nat.
Proof.
  unfold parseIncomingMessage.
  destruct (Reader_parse msg) as [root|]; [|simpl; split; (done || lia)].
  destruct (negb (isObject root)); [simpl; split; (done || lia)|].
  destruct (isMember root "cmd"); [simpl; split; (done || lia)|].
  destruct (isMember root "msg"); [|simpl; split; (done || lia)].
  apply parseWyrmholeMessage_table_grows.
Qed.

(** X10: a chunk document has no default for its count or its identifier.
    When [c] or [cmdId] is missing or is not integral the document is refused
    as "Invalid message", whatever else it holds, and the table is not
    touched. *)
Theorem chunk_without_count_or_id_rejected (junk : indeterminate) (root : Value)
    (table : gmap Z messageInfo) :
  isMember root "c" && isIntegral (index root "c")
  && isMember root "cmdId" && isIntegral (index root "cmdId") = false ->
  parseWyrmholeMessage junk root table = (Throws "Invalid message", table).
Proof.
  intros Hmissing. unfold parseWyrmholeMessage, wyrmholeHeader.
  destruct (isMember root "c"), (isIntegral (index root "c")),
    (isMember root "cmdId"), (isIntegral (index root "cmdId")); done.
Qed.

Lemma chunk_without_count_or_id_rejected_witness :
  let root := objectValue {[ "cmdId" := intValue 1; "msg" := stringValue "a" ]} in
  isMember root "c" && isIntegral (index root "c")
  && isMember root "cmdId" && isIntegral (index root "cmdId") = false
  /\ parseWyrmholeMessage stale_zero root ∅ = (Throws "Invalid message", ∅).
Proof.
  intros root. split; [reflexivity|].
  apply (chunk_without_count_or_id_rejected stale_zero root ∅). reflexivity.
Defined.

Lemma isMember_assign_ne (v : Value) (key key' : string) (x : Value) :
  key ≠ key' -> isMember (assign v key x) key' = isMember v key'.
Proof.
  intros Hne. unfold isMember, assign. destruct v; simpl;
    rewrite ?lookup_insert_ne, ?lookup_singleton_ne by done;
    try done; by apply bool_decide_eq_false; intros [? ?].
Qed.

Lemma asUInt_defined (v : Value) (u : undefined) : asUInt v ≠ Undefined u.
Proof.
  destruct v; simpl; try done.
  - by destruct (_ && _).
  - by destruct (_ <=? _).
  - by destruct (_ && _).
Qed.

(** X11: the sequence number is read only from multi-part documents.  For a
    declared count of at most 1 the [n] member has no effect at all: the
    parse ends the same way with any value in its place.  For a count above
    1 a document whose [n] is missing or not integral is refused and the
    table is not touched. *)
Theorem sequence_number_read_only_for_multipart (junk : indeterminate)
    (root : Value) (table : gmap Z messageInfo) (c0 : Z) :
  asUInt (get root "c" (intValue 1)) = Returns c0 ->
  (c0 <= 1 -> forall v,
     parseWyrmholeMessage junk (assign root "n" v) table
     = parseWyrmholeMessage junk root table)
  /\ (1 < c0 -> isMember root "n" && isIntegral (index root "n") = false ->
      exists w, parseWyrmholeMessage junk root table = (Throws w, table)).
Proof.
  intros Hc. split.
  - intros Hsingle v. unfold parseWyrmholeMessage, wyrmholeHeader, fillMessageInfo.
    rewrite !(isMember_assign_ne root "n" "c"), !(isMember_assign_ne root "n" "cmdId"),
      !(isMember_assign_ne root "n" "colonyId"), !(isMember_assign_ne root "n" "type"),
      !(index_assign_ne root "n" "c"), !(index_assign_ne root "n" "cmdId"),
      !(index_assign_ne root "n" "type"), !(index_assign_ne root "n" "msg"),
      !(get_assign_ne root "n" "colonyId"), !(get_assign_ne root "n" "c") by done.
    destruct (_ || _); [done|].
    destruct (if isMember root "colonyId" then _ else _) as [col|w|u]; [|done..].
    destruct (asUInt (index root "cmdId")) as [id|w|u]; [|done..].
    rewrite Hc. simpl.
    destruct (Z.ltb_spec 1 c0); [lia|]. reflexivity.
  - intros Hmulti Hn. unfold parseWyrmholeMessage, wyrmholeHeader.
    destruct (_ || _); [by eexists|].
    destruct (if isMember root "colonyId" then _ else _) as [col|w|u] eqn:Hcol;
      [|by eexists|].
    + destruct (asUInt (index root "cmdId")) as [id|w|u] eqn:Hid;
        [|by eexists|by apply asUInt_defined in Hid].
      rewrite Hc. simpl.
      destruct (Z.ltb_spec 1 c0); [|lia].
      destruct (isMember root "n"), (isIntegral (index root "n")); try done;
        by eexists.
    + destruct (isMember root "colonyId"); [|done].
      by apply asUInt_defined in Hcol.
Qed.

Lemma sequence_number_read_only_for_multipart_witness :
  let root := objectValue {[ "c" := intValue 1; "cmdId" := intValue 1;
                             "msg" := stringValue "a" ]} in
  asUInt (get root "c" (intValue 1)) = Returns 1
  /\ parseWyrmholeMessage stale_zero (assign root "n" (stringValue "x")) ∅
     = parseWyrmholeMessage stale_zero root ∅.
Proof.
  intros root. split; [reflexivity|].
  destruct (sequence_number_read_only_for_multipart stale_zero root ∅ 1 eq_refl)
    as [Hsingle _].
  apply Hsingle. lia.
Defined.

Lemma asUInt_le_maxUInt (v : Value) (z : Z) :
  asUInt v = Returns z -> z <= maxUInt.
Proof.
  destruct v as [|i|u|r|s|b|l|m]; simpl; try done.
  - intros [= <-]. unfold maxUInt, uint32_modulus. lia.
  - destruct ((0 <=? i) && (i <=? maxUInt)) eqn:Hi; [|done].
    apply andb_true_iff in Hi as [_ Hi%Z.leb_le]. by intros [= <-].
  - destruct (Z.leb_spec u maxUInt); [|done]. by intros [= <-].
  - destruct (QArith_base.Qle_bool _ r && QArith_base.Qle_bool r _) eqn:Hr;
      [|done].
    intros [= <-]. apply andb_true_iff in Hr as [_ Hr].
    apply QArith_base.Qle_bool_imp_le, Qround.Qfloor_resp_le in Hr.
    by rewrite Qround.Qfloor_Z in Hr.
  - intros [= <-]. unfold maxUInt, uint32_modulus. destruct b; lia.
Qed.

(** The index that the header computes for a document declaring at most one
    chunk is the count less one, as an unsigned number. *)
Lemma wyrmholeHeader_single_index (root : Value) (colonyId0 cmdId c0 n : Z)
    (type0 : MessageType) :
  wyrmholeHeader root = Returns (colonyId0, cmdId, c0, n, type0) ->
  c0 <= 1 -> n = to_uint32 (c0 - 1) /\ cmdId <= maxUInt.
Proof.
  unfold wyrmholeHeader.
  destruct (_ || _); [done|].
  destruct (if isMember root "colonyId" then _ else _) as [col|w|u]; simpl;
    [|done..].
  destruct (asUInt (index root "cmdId")) as [id|w|u] eqn:Hid; simpl; [|done..].
  destruct (asUInt (get root "c" (intValue 1))) as [k|w|u]; simpl; [|done..].
  destruct (Z.ltb_spec 1 k).
  - destruct (if negb (isMember root "n") || _ then _ else _) as [n'|w|u];
      simpl; [|done..].
    destruct (if isMember root "type" then _ else _) as [t|w|u]; simpl;
      [|done..].
    intros [= <- <- <- <- <-]. lia.
  - simpl.
    destruct (if isMember root "type" then _ else _) as [t|w|u]; simpl;
      [|done..].
    intros [= <- <- <- <- <-] _. split; [done|].
    by apply asUInt_le_maxUInt in Hid.
Qed.

(** X12: a chunk document that declares a count of zero never yields a
    message.  Its fragment index is [0 - 1] as an unsigned number, which is
    beyond any vector the table can hold for it: on a table with no entry
    under that count, the parse either throws or writes outside the fragment
    vector. *)
Theorem zero_count_never_returns (junk : indeterminate) (root : Value)
    (table : gmap Z messageInfo) :
  asUInt (get root "c" (intValue 1)) = Returns 0 ->
  table !! 0 = None ->
  (exists w, (parseWyrmholeMessage junk root table).1 = Throws w)
  \/ (parseWyrmholeMessage junk root table).1
     = Undefined vector_index_out_of_range.
Proof.
  intros Hc Hfresh. unfold parseWyrmholeMessage.
  destruct (wyrmholeHeader root) as [[[[[colonyId0 cmdId] c0] n] type0]|w|u]
    eqn:Hheader; simpl; [|by left; eexists|].
  - pose proof (wyrmholeHeader_returns _ _ _ _ _ _ Hheader) as [_ Hc'].
    rewrite Hc in Hc'. injection Hc' as <-.
    apply wyrmholeHeader_single_index in Hheader as [-> Hid]; [|lia].
    unfold getMessageInfo. rewrite Hfresh. simpl.
    unfold fillMessageInfo. simpl.
    destruct (asString (index root "msg")) as [msg|w|u'] eqn:Hmsg; simpl;
      [|by left; eexists|by destruct (index root "msg")].
    right. unfold vector_assign. rewrite length_replicate.
    destruct (Z.ltb_spec (to_uint32 (0 - 1)) (Z.of_nat (Z.to_nat cmdId)));
      [|by rewrite andb_false_r].
    exfalso. unfold maxUInt, uint32_modulus in Hid.
    change (to_uint32 (0 - 1)) with 4294967295 in *. lia.
  - exfalso. revert Hheader. unfold wyrmholeHeader.
    destruct (_ || _); [done|].
    destruct (isMember root "colonyId");
      [destruct (asUInt (get root "colonyId" (intValue 0))) as [col|w|u'] eqn:Hcol;
       simpl; [|done|by apply asUInt_defined in Hcol]|simpl].
    all: destruct (asUInt (index root "cmdId")) as [id|w|u'] eqn:Hid; simpl;
      [|done|by apply asUInt_defined in Hid].
    all: rewrite Hc; simpl.
    all: destruct (isMember root "type"); [|done].
    all: by destruct (index root "type").
Qed.

Lemma zero_count_never_returns_witness :
  let root := chunkDocument 0 5 1 "a" in
  asUInt (get root "c" (intValue 1)) = Returns 0
  /\ (parseWyrmholeMessage stale_zero root ∅).1
     = Undefined vector_index_out_of_range.
Proof.
  intros root. split; [reflexivity|].
  destruct (zero_count_never_returns stale_zero root ∅ eq_refl (lookup_empty 0))
    as [[w Hthrows]|Hundefined]; [discriminate Hthrows|exact Hundefined].
Defined.

Lemma get_member (v : Value) (key : string) (defaultValue : Value) :
  isMember v key = true -> get v key defaultValue = index v key.
Proof.
  unfold isMember, index, get. destruct v; try done.
  intros [x Hx]%bool_decide_eq_true. by rewrite Hx.
Qed.

(** X13: the kind and the colony of a chunk message.  A message returned for
    a chunk document is a Response when the document has a [type] member
    that reads "resp" and a Command in every other case; its colony is the
    document's [colonyId], and 0 when the document has none. *)
Theorem chunk_message_kind_and_colony (junk : indeterminate) (root : Value)
    (table table' : gmap Z messageInfo) (info : messageInfo) :
  parseWyrmholeMessage junk root table = (Returns info, table') ->
  (type info = RESPONSE \/ type info = COMMAND)
  /\ (type info = RESPONSE
      <-> isMember root "type" = true
          /\ asString (index root "type") = Returns "resp")
  /\ (isMember root "colonyId" = false -> colonyId info = 0)
  /\ (isMember root "colonyId" = true ->
      asUInt (index root "colonyId") = Returns (colonyId info)).
Proof.
  unfold parseWyrmholeMessage, wyrmholeHeader.
  destruct (_ || _); [done|].
  destruct (if isMember root "colonyId" then _ else _) as [col|w|u] eqn:Hcol;
    simpl; [|done..].
  destruct (asUInt (index root "cmdId")) as [id|w|u]; simpl; [|done..].
  destruct (asUInt (get root "c" (intValue 1))) as [k|w|u]; simpl; [|done..].
  destruct (if 1 <? k then _ else _) as [n|w|u]; simpl; [|done..].
  destruct (if isMember root "type" then _ else _) as [t|w|u] eqn:Htype; simpl;
    [|done..].
  destruct (getMessageInfo junk k id table) as [[entry|w|u] table1]; [|done..].
  unfold fillMessageInfo. simpl.
  destruct (asString (index root "msg")) as [msg|w|u]; simpl; [|done..].
  destruct (vector_assign (msgs entry) n msg) as [msgs'|w|u]; simpl; [|done..].
  intros [= <- <-]. simpl.
  assert (t = RESPONSE
          <-> isMember root "type" = true
              /\ asString (index root "type") = Returns "resp") as Hkind.
  { destruct (isMember root "type"); [|injection Htype as <-; by split; [|intros []]].
    destruct (asString (index root "type")) as [s|w|u]; simpl in Htype; [|done..].
    injection Htype as <-.
    destruct (String.eqb_spec s "resp") as [->|Hs]; split; try done.
    intros [_ [= ->]]. done. }
  assert (t = RESPONSE \/ t = COMMAND) as Hcases.
  { destruct (isMember root "type"); [|injection Htype as <-; by right].
    destruct (asString (index root "type")) as [s|w|u]; simpl in Htype; [|done..].
    injection Htype as <-. destruct (String.eqb s "resp"); auto. }
  split; [done|]. split; [done|].
  destruct (isMember root "colonyId") eqn:Hmember.
  - split; [done|]. intros _. by rewrite <- (get_member root "colonyId" (intValue 0)).
  - split; [|done]. intros _. by injection Hcol as <-.
Qed.

Lemma chunk_message_kind_and_colony_witness :
  let root := assign (chunkDocument 1 1 1 "a") "type" (stringValue "resp") in
  exists info table',
    parseWyrmholeMessage stale_zero root ∅ = (Returns info, table')
    /\ type info = RESPONSE
    /\ colonyId info = 0.
Proof.
  intros root.
  edestruct (chunk_message_kind_and_colony stale_zero root ∅)
    as (_ & Hkind & Hcolony & _); [reflexivity|].
  do 2 eexists. split; [reflexivity|].
  split; [by apply Hkind|by apply Hcolony].
Defined.

(** X14: which chunks are complete.  On a table in which no entry has
    received anything, as every table is that the parser has built, the
    message returned for a chunk document is complete exactly when the
    document's [cmdId] is at most 1; its declared count and its sequence
    number have no part in it. *)
Theorem chunk_completeness_by_cmdId (junk : indeterminate) (root : Value)
    (table table' : gmap Z messageInfo) (info : messageInfo) :
  pristine table ->
  parseWyrmholeMessage junk root table = (Returns info, table') ->
  exists cmdId,
    asUInt (index root "cmdId") = Returns cmdId
    /\ c info = cmdId
    /\ curC info = 1
    /\ isComplete info = (cmdId <=? 1).
Proof.
  intros Hpristine Hparse.
  destruct (parseWyrmholeMessage_single_fragment _ _ _ _ _ Hpristine Hparse)
    as (_ & HcurC & _).
  revert Hparse. unfold parseWyrmholeMessage.
  destruct (wyrmholeHeader root) as [[[[[colonyId0 cmdId] c0] n] type0]|w|u]
    eqn:Hheader; [|done..].
  apply wyrmholeHeader_returns in Hheader as [Hid _].
  destruct (getMessageInfo junk c0 cmdId table) as [[entry|w|u] table1] eqn:Hget;
    [|done..].
  apply getMessageInfo_returns in Hget as (_ & Hsize & _).
  intros [= Hfill <-]. exists cmdId. split; [done|].
  assert (c info = cmdId) as Hcount.
  { unfold fillMessageInfo in Hfill. simpl in Hfill.
    destruct (asString (index root "msg")) as [msg|w|u]; simpl in Hfill; [|done..].
    destruct (vector_assign (msgs entry) n msg) as [msgs'|w|u]; simpl in Hfill;
      [|done..].
    by injection Hfill as <-. }
  split; [done|]. split; [done|].
  unfold isComplete. by rewrite Hcount, HcurC.
Qed.

Lemma chunk_completeness_by_cmdId_witness :
  exists info table',
    pristine ∅
    /\ parseWyrmholeMessage stale_zero (chunkDocument 3 1 1 "b") ∅
       = (Returns info, table')
    /\ isComplete info = true.
Proof.
  edestruct (chunk_completeness_by_cmdId stale_zero (chunkDocument 3 1 1 "b") ∅)
    as (cmdId & Hid & _ & _ & Hcomplete); [apply pristine_empty|reflexivity|].
  do 2 eexists. split; [apply pristine_empty|]. split; [reflexivity|].
  rewrite Hcomplete. injection Hid as <-. reflexivity.
Defined.

(** X15: what makes a Create message.  [parseCommandMessage] returns a
    message exactly when the document's [cmd] member reads "create" and it
    has a [mimetype] member that reads as a string; the message is then of
    kind Create and its only fragment is that mimetype, while its
    identifiers and counts are whatever the default-constructed record
    held. *)
Theorem create_requires_cmd_and_mimetype (junk : indeterminate) (root : Value)
    (message : messageInfo) :
  parseCommandMessage junk root = Returns message
  <-> asString (index root "cmd") = Returns "create"
      /\ isMember root "mimetype" = true
      /\ exists mimetype,
           asString (index root "mimetype") = Returns mimetype
           /\ message = {| colonyId := any_colonyId junk; msgId := any_msgId junk;
                           c := any_c junk; curC := any_curC junk;
                           msgs := [mimetype]; type := CREATE |}.
Proof.
  unfold parseCommandMessage. split.
  - destruct (asString (index root "cmd")) as [cmd|w|u]; simpl; [|done..].
    destruct (String.eqb_spec cmd "create") as [->|]; [|done].
    destruct (isMember root "mimetype"); [|done]. simpl.
    destruct (asString (index root "mimetype")) as [mimetype|w|u]; simpl;
      [|done..].
    intros [= <-]. eauto.
  - intros (-> & -> & mimetype & -> & ->). reflexivity.
Qed.


(** ** The inbound entry point *)

Section Inbound.

Context `{env : Collaborators}.



End Inbound.

(** ** The dispatcher *)

Lemma sendChunks_other_members (strCommand : string) (strCommandLen : Z)
    (remaining : nat) :
  forall (root : Value) (i : Z) (d : Value) (key : string),
    d ∈ (sendChunks root strCommand strCommandLen i remaining).2 ->
    key ≠ "n" -> key ≠ "msg" -> index d key = index root key.
Proof.
  induction remaining as [|k IH]; intros root i d key; cbn [sendChunks].
  - simpl. by intros ?%elem_of_nil.
  - destruct (string_from_buffer _ _ _) as [fragment|w|u];
      [|simpl; by intros ?%elem_of_nil..].
    destruct (sendChunks _ strCommand strCommandLen (i + 1) k)
      as [r written] eqn:Hrest.
    simpl. intros [->|Hin]%elem_of_cons Hn Hmsg.
    + by rewrite !index_assign_ne.
    + rewrite (IH _ (i + 1) d key) by (by rewrite ?Hrest).
      by rewrite !index_assign_ne.
Qed.

Lemma sendCommand_no_status (colonyId0 cmdId : Z) (strCommand type0 : string)
    (strCommandLen : Z) (d : Value) :
  d ∈ (sendCommand colonyId0 cmdId strCommand strCommandLen type0).2 ->
  index d "status" = nullValue.
Proof.
  unfold sendCommand.
  destruct (sendChunks _ strCommand strCommandLen 0 _) as [r written] eqn:Hrun.
  simpl. intros Hin.
  erewrite sendChunks_other_members; [|by rewrite Hrun|done..].
  by rewrite !index_assign_ne.
Qed.

Section Acknowledgments.

Context `{env : Collaborators}.

(** X17: a success is acknowledged only for a plugin that is loaded and
    initialised.  Whenever [processBrowserMessage] returns, what it wrote
    follows what was written before; and if a document it wrote has the
    status "success", then the message was of kind Command, the loader
    returned a module for its first fragment, [Init] of that module
    returned, the module is the one now held in [m_pluginLoader], and the
    document names it. *)
Theorem success_acknowledged_only_after_init (message : messageInfo)
    (ml ml' : MainLoop) :
  processBrowserMessage message ml = Returns ml' ->
  exists written,
    cout ml' = cout ml ++ written
    /\ forall d, d ∈ written -> index d "status" = stringValue "success" ->
         exists first rest loader,
           type message = COMMAND
           /\ msgs message = first :: rest
           /\ LoadPlugin first = Returns loader
           /\ Init loader = Returns ()
           /\ m_pluginLoader ml' = Some loader
           /\ index d "plugin" = stringValue (getPluginName loader).
Proof.
  unfold processBrowserMessage, loadAndAcknowledge.
  destruct (type message) eqn:Htype; simpl.
  1-3: intros [= <-]; eexists; (split; [reflexivity|]);
       intros d ->%list_elem_of_singleton; done.
  - destruct (msgs message) as [|first rest] eqn:Hmsgs; [done|]. simpl.
    destruct (LoadPlugin first) as [loader|w|u] eqn:Hload; [| |done].
    + destruct (Init loader) as [[]|w|u] eqn:Hinit; simpl; [| |done].
      * intros [= <-]. eexists. split; [reflexivity|].
        intros d ->%list_elem_of_singleton _. by exists first, rest, loader.
      * intros [= <-]. eexists. split; [reflexivity|].
        intros d ->%list_elem_of_singleton. done.
    + intros [= <-]. eexists. split; [reflexivity|].
      intros d ->%list_elem_of_singleton. done.
  - intros Hsend. pose proof (hostSend_frame _ _ _ Hsend) as (_ & _ & _ & _ & Hcout).
    eexists. split; [exact Hcout|].
    intros d Hin Hstatus. apply sendCommand_no_status in Hin. congruence.
  - destruct (msgs message) as [|text rest]; [done|]. simpl.
    intros [= <-]. eexists. split; [reflexivity|].
    intros d ->%list_elem_of_singleton. done.
Qed.

(** X18: what a failed load leaves behind.  For a Command message whose
    first fragment the loader refuses, the error is acknowledged and
    [m_pluginLoader] is what it was.  When the loader returns a module whose
    [Init] throws, the error is acknowledged as well, but the module stays
    in [m_pluginLoader]. *)
Theorem failed_load_and_failed_init (message : messageInfo) (first : string)
    (rest : list string) (ml : MainLoop) :
  type message = COMMAND ->
  msgs message = first :: rest ->
  (forall what, LoadPlugin first = Throws what ->
     exists ml',
       processBrowserMessage message ml = Returns ml'
       /\ m_pluginLoader ml' = m_pluginLoader ml
       /\ cout ml' = cout ml ++ [objectValue {[ "status" := stringValue "error";
                                     "message" := stringValue (caught_what what) ]}])
  /\ (forall loader what, LoadPlugin first = Returns loader ->
        Init loader = Throws what ->
        exists ml',
          processBrowserMessage message ml = Returns ml'
          /\ m_pluginLoader ml' = Some loader
          /\ cout ml' = cout ml ++ [objectValue {[ "status" := stringValue "error";
                                        "message" := stringValue (caught_what what) ]}]).
Proof.
  intros Htype Hmsgs. unfold processBrowserMessage, loadAndAcknowledge.
  rewrite Htype, Hmsgs. simpl. split.
  - intros what ->. eexists. split; [reflexivity|]. split; reflexivity.
  - intros loader what -> ->. eexists. split; [reflexivity|]. split; reflexivity.
Qed.

(** X19: dispatching a message changes the output and the loader and nothing
    else.  When [processBrowserMessage] returns, both queues, the
    pending-message table, the exit flag and the record of callbacks run are
    as they were, and the documents already written are still there, in
    order, before the new ones. *)
Theorem processBrowserMessage_changes_output_and_loader_only
    (message : messageInfo) (ml ml' : MainLoop) :
  processBrowserMessage message ml = Returns ml' ->
  m_messagesIn ml' = m_messagesIn ml
  /\ m_AsyncCalls ml' = m_AsyncCalls ml
  /\ msgMap ml' = msgMap ml
  /\ m_needsToExit ml' = m_needsToExit ml
  /\ invoked ml' = invoked ml
  /\ cout ml `prefix_of` cout ml'.
Proof.
  unfold processBrowserMessage, loadAndAcknowledge.
  destruct (type message); simpl;
    try (destruct (vector_at (msgs message) 0) as [m0|w|u]; simpl; [|done..]);
    try (intros [= <-]; simpl; repeat split; by eexists).
  - destruct (LoadPlugin m0) as [loader|w|u]; [| |done].
    + destruct (Init loader) as [[]|w|u]; simpl; [| |done];
        intros [= <-]; simpl; repeat split; by eexists.
    + intros [= <-]; simpl; repeat split; by eexists.
  - unfold hostSend. destruct (doCommandCallback _ _ _ _) as [[r|w|u] written];
      simpl; [|done..].
    intros [= <-]. simpl. repeat split; by eexists.
Qed.

End Acknowledgments.

Lemma failed_load_and_failed_init_witness :
  let message := {| colonyId := 0; msgId := 1; c := 1; curC := 1;
                    msgs := ["application/x-broken"]; type := COMMAND |} in
  let loader := {| Init := Throws "Init failed";
                   getPluginName := "application/x-broken" |} in
  exists ml',
    processBrowserMessage (env := failing_init_collaborators) message idle
    = Returns ml'
    /\ m_pluginLoader ml' = Some loader
    /\ cout ml' = cout idle ++ [objectValue {[ "status" := stringValue "error";
                                   "message" := stringValue "Init failed" ]}].
Proof.
  intros message loader.
  destruct (failed_load_and_failed_init (env := failing_init_collaborators)
              message "application/x-broken" [] idle eq_refl eq_refl)
    as [_ Hinit].
  apply (Hinit loader "Init failed"); reflexivity.
Defined.

Lemma success_acknowledged_only_after_init_witness :
  let message := {| colonyId := 0; msgId := 1; c := 1; curC := 1;
                    msgs := ["application/x-fbtestplugin"]; type := COMMAND |} in
  exists ml' written,
    processBrowserMessage (env := fbtest_collaborators) message idle = Returns ml'
    /\ m_pluginLoader ml'
       = Some {| Init := Returns (); getPluginName := "FBTestPlugin" |}
    /\ cout ml' = cout idle ++ written.
Proof.
  intros message.
  edestruct (success_acknowledged_only_after_init (env := fbtest_collaborators)
               message idle) as (written & Hcout & _); [reflexivity|].
  do 2 eexists. split; [reflexivity|]. split; [reflexivity|exact Hcout].
Defined.

Lemma processBrowserMessage_changes_output_and_loader_only_witness :
  let message := {| colonyId := 0; msgId := 9; c := 1; curC := 1;
                    msgs := ["P2"]; type := RESPONSE |} in
  exists ml',
    processBrowserMessage (env := fbtest_collaborators) message idle = Returns ml'
    /\ m_messagesIn ml' = m_messagesIn idle
    /\ m_AsyncCalls ml' = m_AsyncCalls idle.
Proof.
  intros message. eexists. split; [reflexivity|].
  edestruct (processBrowserMessage_changes_output_and_loader_only
               (env := fbtest_collaborators) message idle)
    as (Hmessages & Hcalls & _); [reflexivity|].
  split; [exact Hmessages|exact Hcalls].
Defined.

Section Responses.

Context `{env : Collaborators}.

(** X20: a Response message is written back whole.  When its text is shorter
    than [2^31] bytes, [processBrowserMessage] returns after adding to the
    output the [countChunks] documents of that text, each tagged "resp" and
    carrying the message's colony and message identifiers, whose fragments
    joined in order are the text; nothing else in the loop changes, and for
    an empty text nothing is written at all. *)
Theorem response_message_written_back (message : messageInfo) (ml : MainLoop) :
  type message = RESPONSE ->
  Z.of_nat (String.length (getString message)) < 2 ^ 31 ->
  exists docs,
    processBrowserMessage message ml = Returns (set_cout (cout ml ++ docs) ml)
    /\ Z.of_nat (length docs)
       = countChunks (Z.of_nat (String.length (getString message)))
    /\ joinFragments (fragmentOf <$> docs) = getString message
    /\ (getString message = "" -> docs = [])
    /\ forall d, d ∈ docs ->
         index d "type" = stringValue "resp"
         /\ index d "colonyId" = uintValue (colonyId message)
         /\ index d "cmdId" = uintValue (msgId message).
Proof.
  intros Htype Hlen. unfold processBrowserMessage. rewrite Htype. simpl.
  unfold doCommandCallback, to_uint32, uint32_modulus.
  rewrite Z.mod_small by lia.
  destruct (sendCommand_in_range (colonyId message) (msgId message)
              (getString message) "resp" Hlen)
    as (docs & Hrun & Hcount & Hdocs & Hjoin).
  rewrite Hrun. exists docs. split; [reflexivity|].
  split; [done|]. split; [done|]. split.
  - intros Hempty. rewrite Hempty in Hcount. destruct docs; [done|].
    simpl in Hcount. change (countChunks (Z.of_nat 0)) with 0 in Hcount. lia.
  - intros d [j Hj]%list_elem_of_lookup.
    destruct (Hdocs j d Hj) as (_ & Htag & Hcolony & Hid & _). done.
Qed.

End Responses.

Lemma response_message_written_back_witness :
  let message := {| colonyId := 7; msgId := 9; c := 2; curC := 2;
                    msgs := ["P"; "2"]; type := RESPONSE |} in
  exists docs,
    processBrowserMessage (env := fbtest_collaborators) message idle
    = Returns (set_cout (cout idle ++ docs) idle)
    /\ joinFragments (fragmentOf <$> docs) = "P2".
Proof.
  intros message.
  destruct (response_message_written_back (env := fbtest_collaborators)
              message idle eq_refl) as (docs & Hrun & _ & Hjoin & _);
    [reflexivity|].
  exists docs. split; [exact Hrun|exact Hjoin].
Defined.

(** ** Async calls and the loop *)

Section AsyncCalls.

Context `{env : Collaborators}.

Lemma hostCalls_queue (hs : list HostCall) (ml ml' : MainLoop) :
  hostCalls hs ml = Returns ml' ->
  m_AsyncCalls ml' = m_AsyncCalls ml ++ scheduledBy hs.
Proof.
  unfold hostCalls, scheduledBy. revert ml'.
  induction hs as [|h hs IH] using rev_ind; intros ml'.
  - intros [= <-]. simpl. by rewrite app_nil_r.
  - rewrite foldl_snoc, omap_app.
    destruct (foldl _ (Returns ml) hs) as [ml1|w|u]; simpl; [|done..].
    specialize (IH ml1 eq_refl). destruct h; simpl.
    + intros [= <-]. simpl. by rewrite IH, app_assoc.
    + intros Hsend. apply hostSend_frame in Hsend as (_ & -> & _).
      by rewrite IH, app_nil_r.
    + intros Hsend. apply hostSend_frame in Hsend as (_ & -> & _).
      by rewrite IH, app_nil_r.
Qed.

(** X21: async calls are served first in, first out, and a callback cannot
    jump the queue.  [scheduleCall] puts a call at the back.  The async half
    of a pass takes the call at the front and runs that call and no other;
    the calls which the callback itself schedules go behind those already
    waiting, in the order made, and the inbound queue is not touched. *)
Theorem async_calls_first_in_first_out (ml ml' : MainLoop) (call : AsyncCall)
    (rest : list AsyncCall) :
  m_AsyncCalls ml = call :: rest ->
  runAsyncCall ml = Returns ml' ->
  invoked ml' = invoked ml ++ [call]
  /\ m_AsyncCalls ml' = rest ++ scheduledBy (async_body call)
  /\ m_messagesIn ml' = m_messagesIn ml
  /\ forall later, m_AsyncCalls (scheduleCall later ml') = m_AsyncCalls ml' ++ [later].
Proof.
  intros Hqueue. unfold runAsyncCall. rewrite Hqueue. intros Hcalls.
  pose proof (hostCalls_queue _ _ _ Hcalls) as Hscheduled.
  apply hostCalls_frame in Hcalls as [Hmessages Hinvoked].
  split; [by rewrite Hinvoked|]. split; [by rewrite Hscheduled|].
  split; [by rewrite Hmessages|]. done.
Qed.




End AsyncCalls.

Lemma async_calls_first_in_first_out_witness :
  let call1 := {| fn := 1; pData := 5 |} in
  let call3 := {| fn := 3; pData := 0 |} in
  let ml := set_AsyncCalls [call1; call3] idle in
  exists ml',
    runAsyncCall (env := chaining_collaborators) ml = Returns ml'
    /\ invoked ml' = [call1]
    /\ m_AsyncCalls ml' = [call3; {| fn := 2; pData := 5 |}].
Proof.
  intros call1 call3 ml.
  edestruct (async_calls_first_in_first_out (env := chaining_collaborators) ml)
    as (Hinvoked & Hqueue & _); [reflexivity|reflexivity|].
  eexists. split; [reflexivity|].
  split; [exact Hinvoked|exact Hqueue].
Defined.


(** ** Two more edges *)

(** X23: the table is keyed by the declared count, so two messages with the
    same count cannot be pending together.  Once a chunk document declaring
    count [c0] under one [cmdId] has been parsed into a message, a chunk
    document that declares the same count under another [cmdId] is refused
    with the sequence-size error, and the table is not touched. *)
Theorem same_count_other_message_refused (junk : indeterminate)
    (root1 root2 : Value) (table table1 : gmap Z messageInfo) (info1 : messageInfo)
    (colony1 colony2 cmdId1 cmdId2 c0 n1 n2 : Z) (type1 type2 : MessageType) :
  wyrmholeHeader root1 = Returns (colony1, cmdId1, c0, n1, type1) ->
  wyrmholeHeader root2 = Returns (colony2, cmdId2, c0, n2, type2) ->
  cmdId2 ≠ cmdId1 ->
  parseWyrmholeMessage junk root1 table = (Returns info1, table1) ->
  parseWyrmholeMessage junk root2 table1
  = (Throws "Invalid sequence size; sequence size already set", table1).
Proof.
  intros Hheader1 Hheader2 Hother. unfold parseWyrmholeMessage.
  rewrite Hheader1, Hheader2.
  destruct (getMessageInfo junk c0 cmdId1 table) as [[entry|w|u] table0] eqn:Hget;
    [|done..].
  intros [= _ <-].
  apply getMessageInfo_returns in Hget as (Hentry & Hsize & _).
  rewrite (getMessageInfo_size_mismatch junk c0 cmdId2 table0 entry); [done..|].
  congruence.
Qed.

Lemma same_count_other_message_refused_witness :
  exists info1 table1,
    parseWyrmholeMessage stale_zero (chunkDocument 1 1 1 "a") ∅
    = (Returns info1, table1)
    /\ parseWyrmholeMessage stale_zero (chunkDocument 1 2 1 "b") table1
       = (Throws "Invalid sequence size; sequence size already set", table1).
Proof.
  do 2 eexists. split; [reflexivity|].
  eapply (same_count_other_message_refused stale_zero
            (chunkDocument 1 1 1 "a") (chunkDocument 1 2 1 "b") ∅);
    [reflexivity | reflexivity | done | reflexivity].
Defined.

Lemma string_from_buffer_outside (buffer : string) (off count : Z)
    (u : undefined) :
  0 <= off -> 0 <= count <= maxCommandSize ->
  string_from_buffer buffer off count = Undefined u ->
  u = character_range_outside_buffer
  /\ Z.of_nat (String.length buffer) < off + count.
Proof.
  intros Hoff Hcount. unfold string_from_buffer.
  rewrite to_size_t_small
    by (unfold size_t_modulus, maxCommandSize in *; lia).
  destruct (_ <? _); [done|].
  destruct (Z.leb_spec 0 off); [|lia].
  destruct (Z.leb_spec (off + count) (Z.of_nat (String.length buffer)));
    [done|].
  by intros [= <-].
Qed.

Lemma sendChunks_overruns_buffer (buffer : string) (strCommandLen : Z)
    (remaining : nat) :
  Z.of_nat (String.length buffer) < strCommandLen < 2 ^ 31 ->
  forall (root : Value) (i : Z),
    0 <= i ->
    i + Z.of_nat (S remaining) = countChunks strCommandLen ->
    exists written,
      sendChunks root buffer strCommandLen i (S remaining)
      = (Undefined character_range_outside_buffer, written)
      /\ (length written <= remaining)%nat
      /\ Z.of_nat (String.length buffer)
         < maxCommandSize * (i + Z.of_nat (length written))
           + chunkLength strCommandLen (i + Z.of_nat (length written)).
Proof.
  intros Hlen. pose proof (countChunks_bounds strCommandLen) as Hbounds.
  induction remaining as [|k IH]; intros root i Hi Hcount.
  - cbn [sendChunks].
    assert (0 <= maxCommandSize * i < 2 ^ 31) as Hoff
      by (unfold maxCommandSize in *; lia).
    rewrite (to_size_t_small (maxCommandSize * i))
      by (unfold size_t_modulus; lia).
    pose proof (chunkLength_in_range strCommandLen i Hi
                  ltac:(unfold maxCommandSize in *; lia)) as Hchunk.
    destruct (string_from_buffer buffer (maxCommandSize * i)
                (chunkLength strCommandLen i)) as [fragment|w|u] eqn:Hfragment.
    + exfalso. revert Hfragment. rewrite Hchunk. unfold string_from_buffer.
      rewrite to_size_t_small
        by (unfold size_t_modulus, maxCommandSize in *; lia).
      destruct (_ <? _); [done|].
      destruct (Z.leb_spec (maxCommandSize * i
                            + Z.min maxCommandSize
                                (strCommandLen - maxCommandSize * i))
                  (Z.of_nat (String.length buffer)));
        [unfold maxCommandSize in *; lia|].
      by rewrite andb_false_r.
    + exfalso. revert Hfragment. rewrite Hchunk. unfold string_from_buffer.
      rewrite to_size_t_small
        by (unfold size_t_modulus, maxCommandSize in *; lia).
      destruct (Z.ltb_spec string_max_size
                  (Z.min maxCommandSize (strCommandLen - maxCommandSize * i)));
        [unfold string_max_size, maxCommandSize in *; lia|].
      by destruct (_ && _).
    + apply string_from_buffer_outside in Hfragment as [-> Hout];
        [| lia | rewrite Hchunk; unfold maxCommandSize in *; lia].
      exists []. simpl. rewrite Z.add_0_r. split; [done|]. split; [lia|done].
  - remember (S k) as k' eqn:Hk'. cbn [sendChunks].
    assert (0 <= maxCommandSize * i < 2 ^ 31) as Hoff
      by (unfold maxCommandSize in *; lia).
    rewrite (to_size_t_small (maxCommandSize * i))
      by (unfold size_t_modulus; lia).
    pose proof (chunkLength_in_range strCommandLen i Hi
                  ltac:(unfold maxCommandSize in *; lia)) as Hchunk.
    destruct (string_from_buffer buffer (maxCommandSize * i)
                (chunkLength strCommandLen i)) as [fragment|w|u] eqn:Hfragment.
    + subst k'.
      destruct (IH (assign (assign root "n" (uintValue (to_size_t (i + 1))))
                      "msg" (stringValue fragment)) (i + 1))
        as (written & -> & Hshort & Hout); [lia | lia |].
      eexists. split; [reflexivity|]. simpl. split; [lia|].
      replace (i + Z.of_nat (S (length written)))
        with (i + 1 + Z.of_nat (length written)) by lia.
      done.
    + exfalso. revert Hfragment. rewrite Hchunk. unfold string_from_buffer.
      rewrite to_size_t_small
        by (unfold size_t_modulus, maxCommandSize in *; lia).
      destruct (Z.ltb_spec string_max_size
                  (Z.min maxCommandSize (strCommandLen - maxCommandSize * i)));
        [unfold string_max_size, maxCommandSize in *; lia|].
      by destruct (_ && _).
    + apply string_from_buffer_outside in Hfragment as [-> Hout];
        [| lia | rewrite Hchunk; unfold maxCommandSize in *; lia].
      exists []. simpl. rewrite Z.add_0_r. split; [done|]. split; [lia|done].
Qed.

(** X24: the length passed to [sendCommand] must not exceed the buffer.  For
    a length below [2^31] that is greater than the number of bytes the
    buffer holds, the loop reaches, after the documents it has written, a
    round whose fragment is a range of characters that ends outside the
    buffer: [std::string] is built from memory past the buffer's end, which
    the language leaves undefined.  Nothing stops the call there; what it
    does from that round on is not determined by the source. *)
Theorem sendCommand_overruns_short_buffer (colonyId0 cmdId : Z)
    (buffer type0 : string) (strCommandLen : Z) :
  Z.of_nat (String.length buffer) < strCommandLen < 2 ^ 31 ->
  exists written : list Value,
    sendCommand colonyId0 cmdId buffer strCommandLen type0
    = (Undefined character_range_outside_buffer, written)
    /\ Z.of_nat (length written) < countChunks strCommandLen
    /\ 0 <= chunkLength strCommandLen (Z.of_nat (length written))
    /\ Z.of_nat (String.length buffer)
       < maxCommandSize * Z.of_nat (length written)
         + chunkLength strCommandLen (Z.of_nat (length written)).
Proof.
  intros Hlen. unfold sendCommand.
  pose proof (countChunks_bounds strCommandLen) as Hbounds.
  assert (0 < countChunks strCommandLen) as Hcount
    by (unfold maxCommandSize in *; lia).
  destruct (Z.to_nat (countChunks strCommandLen)) as [|k] eqn:Hk; [lia|].
  set (root := assign _ "cmdId" _).
  destruct (sendChunks_overruns_buffer buffer strCommandLen k Hlen root 0
              ltac:(lia) ltac:(lia)) as (written & -> & Hshort & Hout).
  exists written. split; [reflexivity|]. split; [lia|].
  rewrite Z.add_0_l in Hout. split; [|done].
  rewrite chunkLength_in_range; unfold maxCommandSize in *; lia.
Qed.

Lemma sendCommand_overruns_short_buffer_witness :
  Z.of_nat (String.length "ab") < 3 < 2 ^ 31
  /\ exists written : list Value,
       sendCommand 0 1 "ab" 3 "cmd"
       = (Undefined character_range_outside_buffer, written)
       /\ Z.of_nat (String.length "ab")
          < maxCommandSize * Z.of_nat (length written)
            + chunkLength 3 (Z.of_nat (length written)).
Proof.
  split; [split; reflexivity|].
  destruct (sendCommand_overruns_short_buffer 0 1 "ab" "cmd" 3)
    as (written & Hrun & _ & _ & Hout); [split; reflexivity|].
  exists written. split; [exact Hrun|exact Hout].
Defined.
